(** * TCP ping-pong: a shallow embedding of [main.cpp]

    The program forks into two processes that exchange "PING"/"PONG" over one
    TCP connection.  Everything the program does goes through the operating
    system, so the embedding is a small free monad over the calls the source
    makes ([socket], [bind], [send], [recv], [close], [fork], ...), with the
    C++ control effects the source relies on: exceptions ([sys_error] throws
    [std::runtime_error]), scope exit (destructors), [_exit], and one place
    where the source reads storage it did not initialise.

    A program is run against a script of answers of the operating system.
    The answers are the inputs of the model: statements quantify over all
    scripts, and a script that ends early stands for a call that has not
    returned (a blocked [accept] or [recv]). *)

From Stdlib Require Import ZArith List String Ascii Lia Bool.
From Stdlib.Strings Require Import Byte.
From stdpp Require Import base list gmap strings pretty.
Import ListNotations.
Open Scope Z_scope.

(** ** Constants of the source *)

Definition PORT : Z := 9889.
Definition MAX_ITERATIONS : Z := 6.

(** ** Calls, answers and programs *)

Inductive stream := Stdout | Stderr.

(** One constructor per kind of interaction of [main.cpp] with its
    environment.  [EvSend] carries the [len] bytes found at the pointer given
    to [send]; [EvRecv] carries the capacity given to [recv]. *)
Inductive event :=
| EvSocket                                    (* socket(AF_INET, SOCK_STREAM, 0) *)
| EvSetsockopt (fd : Z)                       (* SOL_SOCKET, SO_REUSEADDR, 1 *)
| EvBind (fd port : Z)                        (* INADDR_ANY, htons(port) *)
| EvListen (fd backlog : Z)
| EvAccept (fd : Z)
| EvInetPton (addr : string)
| EvConnect (fd : Z) (addr : string) (port : Z)
| EvSend (fd : Z) (bytes : list byte)
| EvRecv (fd : Z) (cap : nat)
| EvClose (fd : Z)
| EvSleep (secs : Z)
| EvFork
| EvWaitpid (pid : Z)
| EvStack (size : nat)                        (* storage of an uninitialised char[size] *)
| EvPrint (s : stream) (text : string).

(** The answer to a call: the integer it returns, the bytes it stores
    through a pointer argument, and the text that [std::strerror(errno)]
    yields once the call is back. *)
Record response := Response { ret : Z; data : list byte; text : string }.

Definition no_answer : response := Response 0 [] EmptyString.

(** Calls whose result the source never looks at and that do not wait for a
    peer: they need no entry in the script. *)
Definition silent (e : event) : bool :=
  match e with
  | EvPrint _ _ | EvSleep _ | EvClose _ => true
  | _ => false
  end.

Inductive prog (A : Type) : Type :=
| Ret (a : A)
| Throw (what : string)                       (* a std::runtime_error in flight *)
| Exit (code : Z)                             (* _exit(code) *)
| Undefined                                   (* behaviour the C++ standard leaves undefined *)
| Vis (e : event) (k : response -> prog A).

Arguments Ret {A} a.
Arguments Throw {A} what.
Arguments Exit {A} code.
Arguments Undefined {A}.
Arguments Vis {A} e k.

Fixpoint bind {A B} (p : prog A) (f : A -> prog B) : prog B :=
  match p with
  | Ret a => f a
  | Throw w => Throw w
  | Exit c => Exit c
  | Undefined => Undefined
  | Vis e k => Vis e (fun r => bind (k r) f)
  end.

#[global] Instance prog_ret : MRet prog := @Ret.
#[global] Instance prog_bind : MBind prog := fun A B f p => bind p f.

Definition call (e : event) : prog response := Vis e Ret.

(** Leaving a scope: the destructor [d] runs on normal exit and while an
    exception unwinds the stack (every throw of the source happens under the
    handler of [main]); [_exit] runs no destructor. *)
Fixpoint scope {A} (p : prog A) (d : prog unit) : prog A :=
  match p with
  | Ret a => bind d (fun _ => Ret a)
  | Throw w => bind d (fun _ => Throw w)
  | Exit c => Exit c
  | Undefined => Undefined
  | Vis e k => Vis e (fun r => scope (k r) d)
  end.

(** [try { p } catch (const std::exception &ex) { h ex.what() }] *)
Fixpoint try_catch {A} (p : prog A) (h : string -> prog A) : prog A :=
  match p with
  | Ret a => Ret a
  | Throw w => h w
  | Exit c => Exit c
  | Undefined => Undefined
  | Vis e k => Vis e (fun r => try_catch (k r) h)
  end.

(** [for (int i = lo; ...; ++i) body], unrolled [n] times. *)
Fixpoint for_loop (n : nat) (i : Z) (body : Z -> prog unit) : prog unit :=
  match n with
  | O => Ret tt
  | S n' => body i ;; for_loop n' (i + 1) body
  end.

(** ** Running a program against a script *)

(** How a run ends: the program returns, an exception leaves it, it calls
    [_exit], its behaviour is undefined, or the script has no answer for its
    next call: the call does not return (it blocks, or the process is killed
    in it). *)
Inductive outcome (A : Type) : Type :=
| Done (a : A)
| Raised (what : string)
| Exited (code : Z)
| UB
| Blocked.

Arguments Done {A} a.
Arguments Raised {A} what.
Arguments Exited {A} code.
Arguments UB {A}.
Arguments Blocked {A}.

Definition entry : Type := event * response.
Definition trace : Type := list entry.

(** The calls made with their answers, the outcome, and what is left of the
    script. *)
Fixpoint run {A} (p : prog A) (env : list response)
  : trace * outcome A * list response :=
  match p with
  | Ret a => ([], Done a, env)
  | Throw w => ([], Raised w, env)
  | Exit c => ([], Exited c, env)
  | Undefined => ([], UB, env)
  | Vis e k =>
      if silent e then
        let '(t, o, rest) := run (k no_answer) env in ((e, no_answer) :: t, o, rest)
      else
        match env with
        | [] => ([], Blocked, [])
        | r :: env' =>
            let '(t, o, rest) := run (k r) env' in ((e, r) :: t, o, rest)
        end
  end.

Definition trace_of {A} (p : prog A) (env : list response) : trace := (run p env).1.1.
Definition outcome_of {A} (p : prog A) (env : list response) : outcome A := (run p env).1.2.

(** ** The helpers of the source *)

(** [[[noreturn]] void sys_error(const std::string &msg)].  The source reads
    the global [errno] right after the call that failed; here the text for
    it is passed along from the answer to that call. *)
Definition sys_error {A} (msg errno : string) : prog A :=
  Throw (msg +:+ ": " +:+ errno).

Definition print (s : stream) (txt : string) : prog unit :=
  call (EvPrint s txt) ;; Ret tt.

Definition sleep (secs : Z) : prog unit := call (EvSleep secs) ;; Ret tt.

Definition close (fd : Z) : prog unit := call (EvClose fd) ;; Ret tt.

(** ** Memory read as C strings *)

(** The bytes before the first null of [mem]; [None] when the modelled
    region holds no null (the scan of [strlen] leaves it). *)
Fixpoint c_str (mem : list byte) : option (list byte) :=
  match mem with
  | [] => None
  | b :: mem' => if Byte.eqb b x00 then Some [] else cons b <$> c_str mem'
  end.

(** Storing [bytes] at the start of [mem]. *)
Definition store (bytes mem : list byte) : list byte :=
  bytes ++ drop (length bytes) mem.

(** A [std::string_view]: the storage found at [data()] and [size()]. *)
Record string_view := StringView { sv_data : list byte; sv_size : nat }.

(** A string literal converted to a view: the literal's array ends with a
    null, and the view's size is its [strlen]. *)
Definition literal (s : string) : string_view :=
  StringView (list_byte_of_string s ++ [x00]) (String.length s).

(** ** class Socket *)

Record Socket := MkSocket { fd_ : Z }.

(** [Socket() = default;] with [int fd_ = -1;] *)
Definition Socket_default : Socket := MkSocket (-1).

(** [explicit Socket(int fd)] *)
Definition Socket_of_fd (fd : Z) (errno : string) : prog Socket :=
  if fd <? 0 then sys_error "socket" errno else Ret (MkSocket fd).

(** [~Socket()] *)
Definition Socket_dtor (s : Socket) : prog unit :=
  if 0 <=? fd_ s then close (fd_ s) else Ret tt.

(** [Socket(Socket &&other)]: the new object and [other] afterwards. *)
Definition Socket_move (other : Socket) : Socket * Socket :=
  (MkSocket (fd_ other), MkSocket (-1)).

(** [operator=(Socket &&other)] on two distinct objects: [this] and [other]
    afterwards.  (The guard [this != &other] is about addresses; it is in
    [Store.step].) *)
Definition Socket_move_assign (this other : Socket) : prog (Socket * Socket) :=
  (if 0 <=? fd_ this then close (fd_ this) else Ret tt) ;;
  Ret (MkSocket (fd_ other), MkSocket (-1)).

(** [void send_str(std::string_view s) const] *)
Definition send_str (sock : Socket) (s : string_view) : prog unit :=
  r ← call (EvSend (fd_ sock) (take (sv_size s + 1) (sv_data s)));
  if ret r <? 0 then sys_error "send" (text r) else Ret tt.

(** [std::string recv_str() const].  [buf] is not initialised: the
    environment supplies what lies at [&buf[0]] (the 128 bytes of [buf] and
    the storage after it).  [recv] stores at most [sizeof(buf)] bytes at its
    start, and [return {buf};] builds the string from the C string at
    [buf]. *)
Definition recv_str (sock : Socket) : prog (list byte) :=
  stack ← call (EvStack 128);
  r ← call (EvRecv (fd_ sock) 128);
  if ret r <=? 0 then sys_error "recv" (text r)
  else
    match c_str (store (take 128 (data r)) (data stack)) with
    | Some s => Ret s
    | None => Undefined
    end.

(** ** class TcpServer *)

(** Runs [d] only while an exception thrown by [p] unwinds: the destructor
    of a member when the constructor body throws. *)
Fixpoint on_throw {A} (p : prog A) (d : prog unit) : prog A :=
  match p with
  | Ret a => Ret a
  | Throw w => bind d (fun _ => Throw w)
  | Exit c => Exit c
  | Undefined => Undefined
  | Vis e k => Vis e (fun r => on_throw (k r) d)
  end.

Record TcpServer := MkTcpServer { listen_fd_ : Socket }.

(** [TcpServer()]: the member starts as [Socket()], the temporary
    [Socket(socket(...))] is move-assigned to it and destroyed, then the
    socket is configured, bound and put to listen. *)
Definition TcpServer_ctor : prog TcpServer :=
  r ← call EvSocket;
  tmp ← on_throw (Socket_of_fd (ret r) (text r)) (Socket_dtor Socket_default);
  '(listen_fd, tmp') ← Socket_move_assign Socket_default tmp;
  Socket_dtor tmp' ;;
  on_throw
    (r ← call (EvSetsockopt (fd_ listen_fd));
     (if ret r <? 0 then sys_error "setsockopt" (text r) else Ret tt) ;;
     r ← call (EvBind (fd_ listen_fd) PORT);
     (if ret r <? 0 then sys_error "bind" (text r) else Ret tt) ;;
     r ← call (EvListen (fd_ listen_fd) 1);
     (if ret r <? 0 then sys_error "listen" (text r) else Ret tt) ;;
     Ret (MkTcpServer listen_fd))
    (Socket_dtor listen_fd).

(** [Socket accept_client() const] *)
Definition accept_client (srv : TcpServer) : prog Socket :=
  r ← call (EvAccept (fd_ (listen_fd_ srv)));
  (if ret r <? 0 then sys_error "accept" (text r) else Ret tt) ;;
  Socket_of_fd (ret r) (text r).

(** ** The two roles *)

Definition LF : string := String "010"%char EmptyString.

(** The body of the loop of [process_a], iteration [i]. *)
Definition round_a (conn : Socket) (i : Z) : prog unit :=
  print Stdout (LF +:+ "--- Iteration " +:+ pretty (i + 1) +:+ " (A) ---" +:+ LF) ;;
  sleep 1 ;;
  print Stdout ("[A] Sending PING..." +:+ LF) ;;
  send_str conn (literal "PING") ;;
  print Stdout ("[A] Waiting for response..." +:+ LF) ;;
  msg ← recv_str conn;
  print Stdout ("[A] Received: " +:+ string_of_list_byte msg +:+ ", entering READY" +:+ LF).

(** [void process_a(Socket conn)]: the parameter is destroyed on return. *)
Definition process_a (conn : Socket) : prog unit :=
  scope
    (print Stdout ("[Process A] Initial state: READY" +:+ LF) ;;
     for_loop (Z.to_nat (MAX_ITERATIONS - 0)) 0 (round_a conn) ;;
     print Stdout ("[Process A] Finished." +:+ LF))
    (Socket_dtor conn).

(** The body of the loop of [process_b], iteration [i]. *)
Definition round_b (sock : Socket) (i : Z) : prog unit :=
  print Stdout (LF +:+ "--- Iteration " +:+ pretty (i + 1) +:+ " (B) ---" +:+ LF) ;;
  print Stdout ("[B] Waiting for PING..." +:+ LF) ;;
  msg ← recv_str sock;
  print Stdout ("[B] Received: " +:+ string_of_list_byte msg +:+ ", entering READY" +:+ LF) ;;
  sleep 1 ;;
  print Stdout ("[B] Sending PONG..." +:+ LF) ;;
  send_str sock (literal "PONG").

(** [void process_b()] *)
Definition process_b : prog unit :=
  r ← call EvSocket;
  sock ← Socket_of_fd (ret r) (text r);
  scope
    (r ← call (EvInetPton "127.0.0.1");
     (if ret r <=? 0 then sys_error "inet_pton" (text r) else Ret tt) ;;
     sleep 1 ;;
     r ← call (EvConnect (fd_ sock) "127.0.0.1" PORT);
     (if ret r <? 0 then sys_error "connect" (text r) else Ret tt) ;;
     print Stdout ("[Process B] Initial state: SLEEP" +:+ LF) ;;
     for_loop (Z.to_nat (MAX_ITERATIONS - 0)) 0 (round_b sock) ;;
     print Stdout ("[Process B] Finished." +:+ LF))
    (Socket_dtor sock).

(** ** main *)

(** The [try] block of [main].  Both processes run it: [fork] answers 0 in
    the child and the child's pid in the parent.  The status that [waitpid]
    stores is never read. *)
Definition main_try : prog Z :=
  print Stdout ("=== TCP Ping-Pong ===" +:+ LF) ;;
  server ← TcpServer_ctor;
  scope
    (r ← call EvFork;
     let pid := ret r in
     (if pid <? 0 then sys_error "fork" (text r) else Ret tt) ;;
     (if pid =? 0 then process_b ;; Exit 0 else Ret tt) ;;
     conn ← accept_client server;
     let '(param, conn') := Socket_move conn in
     scope
       (process_a param ;;
        call (EvWaitpid pid) ;;
        print Stdout (LF +:+ "=== Done ===" +:+ LF) ;;
        Ret 0)
       (Socket_dtor conn'))
    (Socket_dtor (listen_fd_ server)).

(** [int main()] *)
Definition main : prog Z :=
  try_catch main_try
    (fun what => print Stderr ("Fatal error: " +:+ what +:+ LF) ;; Ret 1).

(** ** Scripts *)

(** A call that returns [n]. *)
Definition returns (n : Z) : response := Response n [] EmptyString.

(** A [recv] that delivers [bytes]. *)
Definition delivers (bytes : list byte) : response :=
  Response (Z.of_nat (length bytes)) bytes EmptyString.

(** The storage found at an uninitialised buffer. *)
Definition holds (mem : list byte) : response := Response 0 mem EmptyString.

(** A call that fails: it returns [n] and leaves an [errno] that reads [msg]. *)
Definition fails (n : Z) (msg : string) : response := Response n [] msg.

Definition zeroes (n : nat) : list byte := replicate n x00.

Definition msg0 (s : string) : list byte := list_byte_of_string s ++ [x00].

(** One round as the Initiator sees it when all goes well. *)
Definition a_round_ok : list response :=
  [returns 5; holds (zeroes 128); delivers (msg0 "PONG")].

Definition b_round_ok : list response :=
  [holds (zeroes 128); delivers (msg0 "PING"); returns 5].

(** ** Vocabulary for traces *)

Definition is_send (x : entry) : bool :=
  match x.1 with EvSend _ _ => true | _ => false end.

Definition is_recv (x : entry) : bool :=
  match x.1 with EvRecv _ _ => true | _ => false end.

Definition is_connect (x : entry) : bool :=
  match x.1 with EvConnect _ _ _ => true | _ => false end.

Definition is_waitpid (x : entry) : bool :=
  match x.1 with EvWaitpid _ => true | _ => false end.

(** A receive that the source accepts as a message: [n > 0]. *)
Definition received (x : entry) : bool := is_recv x && (0 <? ret x.2).

(** The test the source applies to the result of each call, and the name it
    gives to [sys_error] when the test fails. *)
Definition failure (x : entry) : option string :=
  match x.1 with
  | EvSocket => if ret x.2 <? 0 then Some "socket" else None
  | EvSetsockopt _ => if ret x.2 <? 0 then Some "setsockopt" else None
  | EvBind _ _ => if ret x.2 <? 0 then Some "bind" else None
  | EvListen _ _ => if ret x.2 <? 0 then Some "listen" else None
  | EvAccept _ => if ret x.2 <? 0 then Some "accept" else None
  | EvInetPton _ => if ret x.2 <=? 0 then Some "inet_pton" else None
  | EvConnect _ _ _ => if ret x.2 <? 0 then Some "connect" else None
  | EvSend _ _ => if ret x.2 <? 0 then Some "send" else None
  | EvRecv _ _ => if ret x.2 <=? 0 then Some "recv" else None
  | EvFork => if ret x.2 <? 0 then Some "fork" else None
  | _ => None
  end.

Definition accepted (x : entry) : Prop := failure x = None.

Definition failed (x : entry) : Prop := failure x ≠ None.

(** [what()] of the exception that [sys_error] throws for a failed call. *)
Definition what_of (name : string) (x : entry) : string :=
  name +:+ ": " +:+ text x.2.

(** A failed call is the error the program stops with. *)
Definition explains {A} (o : outcome A) (x : entry) : Prop :=
  ∀ name, failure x = Some name -> o = Raised (what_of name x).

Inductive kind := Snd | Rcv.

Definition kind_of (x : entry) : option kind :=
  if is_send x then Some Snd else if received x then Some Rcv else None.

Definition kinds (t : trace) : list kind := omap kind_of t.

(** The entries of kind [k]. *)
Definition sat (k : kind) : entry -> bool :=
  match k with Snd => is_send | Rcv => received end.

Definition cycle (n : nat) (a b : kind) : list kind := concat (replicate n [a; b]).

(** The positions in [l] of the elements that satisfy [P], in order. *)
Fixpoint positions {A} (P : A -> bool) (l : list A) : list nat :=
  match l with
  | [] => []
  | x :: l' => (if P x then [0%nat] else []) ++ (S <$> positions P l')
  end.

(** [alt a b t]: among the entries of [t] that satisfy [a] or [b], the
    first satisfies [a], the next [b], and so on in turn. *)
Inductive alt (a b : entry -> bool) : trace -> Prop :=
| alt_nil : alt a b []
| alt_skip x t : a x = false -> b x = false -> alt a b t -> alt a b (x :: t)
| alt_hit x t : a x = true -> b x = false -> alt b a t -> alt a b (x :: t).

(** The runs of [for_loop n i body]: iterations that complete follow each
    other, the first that does not complete ends the loop. *)
Inductive iterates (body : Z -> prog unit) : nat -> Z -> trace -> outcome unit -> Prop :=
| iterates_end i : iterates body 0 i [] (Done tt)
| iterates_stop n i env t o rest :
    run (body i) env = (t, o, rest) -> o ≠ Done tt ->
    iterates body (S n) i t o
| iterates_next n i env t rest t' o :
    run (body i) env = (t, Done tt, rest) -> iterates body n (i + 1) t' o ->
    iterates body (S n) i (t ++ t') o.

(** What a role puts on the wire: it sends its token with the terminator on
    its connection and reads up to 128 bytes from it. *)
Definition on_wire (fd : Z) (token : string) (x : entry) : Prop :=
  match x.1 with
  | EvSend fd' bytes => fd' = fd ∧ bytes = msg0 token
  | EvRecv fd' cap => fd' = fd ∧ cap = 128%nat
  | _ => True
  end.

(** The calls made in the loop of a role and the prints around it. *)
Definition loop_call (fd : Z) (token : string) (x : entry) : Prop :=
  match x.1 with
  | EvSend fd' bytes => fd' = fd ∧ bytes = msg0 token
  | EvRecv fd' cap => fd' = fd ∧ cap = 128%nat
  | EvStack size => size = 128%nat
  | EvPrint s _ => s = Stdout
  | EvSleep secs => secs = 1
  | _ => False
  end.

(** The summary of a run of a role that the statements about it are drawn
    from.  Its transport calls follow the cycle [a b a b ...] of [n] rounds,
    all of it when the role returns; its calls satisfy [P]; when it returns
    every call passed the test of the source; a call that did not is the
    error it stops with, and it stops with an error only after such a call;
    and it never leaves through [_exit]. *)
Record conforms (n : nat) (a b : kind) (P : entry -> Prop)
    (t : trace) (o : outcome unit) : Prop := Conforms {
  cf_prefix : kinds t `prefix_of` cycle n a b;
  cf_whole : o = Done tt -> kinds t = cycle n a b;
  cf_calls : Forall P t;
  cf_accepted : o = Done tt -> Forall accepted t;
  cf_explains : Forall (explains o) t;
  cf_raised : ∀ w, o = Raised w -> Exists failed t;
  cf_no_exit : ∀ c, o ≠ Exited c
}.

(** The socket a run of [process_b] works on: what [socket] returned. *)
Definition socket_of (env : list response) : Z := ret (default no_answer (head env)).

(** The answers to [socket], [inet_pton] and [connect] when the dial works. *)
Definition b_dial_ok : list response := [returns 5; returns 1; returns 0].

(** The calls of a role: those of its loop, and closing its socket. *)
Definition role_call (fd : Z) (token : string) (x : entry) : Prop :=
  loop_call fd token x ∨ x.1 = EvClose fd.

(** What the destructor of a socket adds to a trace. *)
Definition closes (s : Socket) : trace :=
  if 0 <=? fd_ s then [(EvClose (fd_ s), no_answer)] else [].

(** What leaving the scope of a socket adds to a trace: the destructor runs
    on return and while an exception unwinds. *)
Definition unwinds {A} (o : outcome A) (s : Socket) : trace :=
  match o with Done _ | Raised _ => closes s | _ => [] end.

(** The loop of [process_b] with the prints around it. *)
Definition b_loop (sock : Socket) : prog unit :=
  print Stdout ("[Process B] Initial state: SLEEP" +:+ LF) ;;
  for_loop (Z.to_nat (MAX_ITERATIONS - 0)) 0 (round_b sock) ;;
  print Stdout ("[Process B] Finished." +:+ LF).

(** The runs of [process_b], by how far the script lets the dial come. *)
Definition process_b_run_cases (env : list response) (t : trace) (o : outcome unit)
    (rest : list response) : Prop :=
  match env with
  | [] => t = [] ∧ o = Blocked
  | r0 :: env1 =>
      let e0 := (EvSocket, r0) in
      let sock := MkSocket (ret r0) in
      if ret r0 <? 0 then t = [e0] ∧ o = Raised (what_of "socket" e0) else
      match env1 with
      | [] => t = [e0] ∧ o = Blocked
      | r1 :: env2 =>
          let e1 := (EvInetPton "127.0.0.1", r1) in
          if ret r1 <=? 0
          then t = [e0; e1] ++ closes sock ∧ o = Raised (what_of "inet_pton" e1) else
          let e2 := (EvSleep 1, no_answer) in
          match env2 with
          | [] => t = [e0; e1; e2] ∧ o = Blocked
          | r2 :: env3 =>
              let e3 := (EvConnect (ret r0) "127.0.0.1" PORT, r2) in
              if ret r2 <? 0
              then t = [e0; e1; e2; e3] ++ closes sock
                   ∧ o = Raised (what_of "connect" e3) else
              ∃ tl, run (b_loop sock) env3 = (tl, o, rest)
                    ∧ t = [e0; e1; e2; e3] ++ tl ++ unwinds o sock
          end
      end
  end.

(** The calls of [process_b]: the dial, then those of the role. *)
Definition b_call (fd : Z) (x : entry) : Prop :=
  role_call fd "PONG" x ∨ x.1 = EvSocket ∨ x.1 = EvInetPton "127.0.0.1"
  ∨ x.1 = EvConnect fd "127.0.0.1" PORT.

(** No null among [l]: a text that [send_str] may be given. *)
Definition null_free (l : list byte) : bool :=
  forallb (fun b => negb (Byte.eqb b x00)) l.


(** Scenario C: the peer goes away in the third round, after the trigger
    was sent; the read returns 0. *)
Definition a_peer_gone : list response :=
  a_round_ok ++ a_round_ok ++ [returns 5; holds (zeroes 128); fails 0 "Success"].


(** The outcome of a program that did not return, seen from the program
    around it (the case of [Done] is not used). *)
Definition stopped {A B} (o : outcome A) : outcome B :=
  match o with
  | Done _ => Blocked
  | Raised w => Raised w
  | Exited c => Exited c
  | UB => UB
  | Blocked => Blocked
  end.


(** The summary of a run of the constructor of [TcpServer]. *)
Record set_up (t : trace) (o : outcome TcpServer) : Prop := SetUp {
  su_neutral : Forall (fun x => kind_of x = None ∧ is_waitpid x = false) t;
  su_explains : Forall (explains o) t;
  su_raised : ∀ w, o = Raised w -> Exists failed t;
  su_accepted : ∀ srv, o = Done srv -> Forall accepted t;
  su_stops : (∃ srv, o = Done srv) ∨ (∃ w, o = Raised w) ∨ o = Blocked
}.

(** ** The two processes together *)






(** The answers to [socket], [setsockopt], [bind] and [listen]. *)
Definition setup_ok : list response := [returns 3; returns 0; returns 0; returns 0].


(** The child answers three triggers; its fourth read is rejected: the
    parent is gone. *)
Definition child_reset : list response :=
  b_dial_ok ++ concat (replicate 3 b_round_ok)
  ++ [holds (zeroes 128); fails (-1) "Connection reset by peer"].

(** Scenario D: the port is taken, [bind] fails. *)
Definition port_taken : list response :=
  [returns 3; returns 0; fails (-1) "Address already in use"].

(** ** Sockets as objects *)

(** The value-level functions above act on sockets that are distinct local
    objects.  Here sockets live at addresses, so that the same object can be
    named twice ([s = std::move(s)]) and the lifetime of each is explicit. *)
Module Store.

(** What can be done with objects of class [Socket]: the copy operations
    are deleted. *)
Inductive op :=
| Default (a : nat)                           (* Socket a; *)
| FromFd (a : nat) (fd : Z) (errno : string)  (* Socket a(fd); *)
| MoveCtor (a src : nat)                      (* Socket a(std::move(src)); *)
| MoveAssign (dst src : nat)                  (* dst = std::move(src); *)
| Destroy (a : nat).                          (* the lifetime of a ends *)

(** One operation on the live objects [σ].  Using an object outside its
    lifetime, or constructing one where one lives, is undefined. *)
Definition step (σ : gmap nat Socket) (o : op) : prog (gmap nat Socket) :=
  match o with
  | Default a =>
      match σ !! a with
      | None => Ret (<[a := Socket_default]> σ)
      | Some _ => Undefined
      end
  | FromFd a fd errno =>
      match σ !! a with
      | None => s ← Socket_of_fd fd errno; Ret (<[a := s]> σ)
      | Some _ => Undefined
      end
  | MoveCtor a src =>
      match σ !! a, σ !! src with
      | None, Some other =>
          let '(new, other') := Socket_move other in
          Ret (<[a := new]> (<[src := other']> σ))
      | _, _ => Undefined
      end
  | MoveAssign dst src =>
      match σ !! dst, σ !! src with
      | Some this, Some other =>
          if decide (dst = src) then Ret σ
          else
            '(this', other') ← Socket_move_assign this other;
            Ret (<[dst := this']> (<[src := other']> σ))
      | _, _ => Undefined
      end
  | Destroy a =>
      match σ !! a with
      | Some s => Socket_dtor s ;; Ret (delete a σ)
      | None => Undefined
      end
  end.

(** Some live object holds the descriptor [fd]. *)
Definition owned (σ : gmap nat Socket) (fd : Z) : Prop :=
  ∃ a s, σ !! a = Some s ∧ fd_ s = fd.

(** A descriptor given to a constructor comes from [socket] or [accept]:
    it is not one that a live object holds. *)
Definition fresh (σ : gmap nat Socket) (o : op) : Prop :=
  match o with
  | FromFd _ fd _ => ¬ owned σ fd
  | _ => True
  end.

(** The descriptor an operation takes into ownership. *)
Definition acquires (o : op) : list Z :=
  match o with
  | FromFd _ fd _ => [fd]
  | _ => []
  end.

(** The stores that sequences of operations lead to from no object at
    all, with the descriptors acquired and the calls made on the way. *)
Inductive reach : gmap nat Socket -> list Z -> trace -> Prop :=
| reach_init : reach ∅ [] []
| reach_step σ acq t o env t' σ' rest :
    reach σ acq t -> fresh σ o ->
    run (step σ o) env = (t', Done σ', rest) ->
    reach σ' (acq ++ acquires o) (t ++ t')
| reach_throw σ acq t o env t' w rest :
    reach σ acq t -> run (step σ o) env = (t', Raised w, rest) ->
    reach σ acq (t ++ t').

(** At most one live object holds a descriptor. *)
Definition exclusive (σ : gmap nat Socket) : Prop :=
  ∀ a b s s', σ !! a = Some s -> σ !! b = Some s' ->
              0 ≤ fd_ s -> fd_ s = fd_ s' -> a = b.

Definition is_close (fd : Z) (x : entry) : bool :=
  match x.1 with EvClose fd' => fd' =? fd | _ => false end.

(** How often [fd] was closed in [t], and how often it was acquired. *)
Definition closed (fd : Z) (t : trace) : nat := length (positions (is_close fd) t).
Definition acquired (fd : Z) (acq : list Z) : nat := length (positions (Z.eqb fd) acq).

(** Every descriptor was closed as often as it was acquired, but for the
    one acquisition that a live object still holds. *)
Definition balanced (σ : gmap nat Socket) (acq : list Z) (t : trace) : Prop :=
  ∀ fd, 0 ≤ fd ->
    (owned σ fd -> acquired fd acq = S (closed fd t))
    ∧ (¬ owned σ fd -> acquired fd acq = closed fd t).

(** What one operation does, by cases. *)
Inductive effect (σ : gmap nat Socket) : op -> trace -> gmap nat Socket -> Prop :=
| eff_default a :
    σ !! a = None -> effect σ (Default a) [] (<[a := MkSocket (-1)]> σ)
| eff_from_fd a fd errno :
    σ !! a = None -> 0 ≤ fd ->
    effect σ (FromFd a fd errno) [] (<[a := MkSocket fd]> σ)
| eff_move_ctor a src other :
    σ !! a = None -> σ !! src = Some other ->
    effect σ (MoveCtor a src) []
      (<[a := MkSocket (fd_ other)]> (<[src := MkSocket (-1)]> σ))
| eff_move_self a this :
    σ !! a = Some this -> effect σ (MoveAssign a a) [] σ
| eff_move_assign dst src this other :
    dst ≠ src -> σ !! dst = Some this -> σ !! src = Some other ->
    effect σ (MoveAssign dst src) (closes this)
      (<[dst := MkSocket (fd_ other)]> (<[src := MkSocket (-1)]> σ))
| eff_destroy a s :
    σ !! a = Some s -> effect σ (Destroy a) (closes s) (delete a σ).

End Store.

(** ** Descriptors held by a process *)

(** The descriptor a call hands to the process, the descriptor a call is
    made on. *)
Definition opens (x : entry) : list Z :=
  match x.1 with
  | EvSocket | EvAccept _ => if ret x.2 <? 0 then [] else [ret x.2]
  | _ => []
  end.

Definition uses (x : entry) : list Z :=
  match x.1 with
  | EvSetsockopt fd | EvBind fd _ | EvListen fd _ | EvAccept fd
  | EvConnect fd _ _ | EvSend fd _ | EvRecv fd _ | EvClose fd => [fd]
  | _ => []
  end.

(** One call, seen by a monitor that keeps the descriptors the process
    holds, the latest first: a call must be made on a descriptor that is
    held, [close] must be of the latest, and [socket] and [accept] add
    theirs. *)
Definition hold (held : list Z) (x : entry) : option (list Z) :=
  if forallb (fun fd => existsb (Z.eqb fd) held) (uses x) then
    match x.1 with
    | EvClose fd =>
        match held with
        | top :: held' => if top =? fd then Some held' else None
        | [] => None
        end
    | _ => Some (opens x ++ held)
    end
  else None.

Arguments hold : simpl never.

(** The descriptors held after the calls of [t], when the monitor accepts
    them all. *)
Fixpoint track (held : list Z) (t : trace) : option (list Z) :=
  match t with
  | [] => Some held
  | x :: t' => held' ← hold held x; track held' t'
  end.

(** A program that returned, or that an exception left: its scopes are
    closed. *)
Definition unwound {A} (o : outcome A) : bool :=
  match o with Done _ | Raised _ => true | _ => false end.

(** ** The runs of the constructor and of [main], by cases *)

(** The runs of the constructor of [TcpServer], by how far the script lets
    it come. *)
Definition TcpServer_ctor_cases (env : list response) (t : trace)
    (o : outcome TcpServer) (rest : list response) : Prop :=
  match env with
  | [] => t = [] ∧ o = Blocked
  | r0 :: env1 =>
      let e0 := (EvSocket, r0) in
      let lfd := MkSocket (ret r0) in
      if ret r0 <? 0 then t = [e0] ∧ o = Raised (what_of "socket" e0) else
      match env1 with
      | [] => t = [e0] ∧ o = Blocked
      | r1 :: env2 =>
          let e1 := (EvSetsockopt (ret r0), r1) in
          if ret r1 <? 0
          then t = [e0; e1] ++ closes lfd ∧ o = Raised (what_of "setsockopt" e1) else
          match env2 with
          | [] => t = [e0; e1] ∧ o = Blocked
          | r2 :: env3 =>
              let e2 := (EvBind (ret r0) PORT, r2) in
              if ret r2 <? 0
              then t = [e0; e1; e2] ++ closes lfd ∧ o = Raised (what_of "bind" e2) else
              match env3 with
              | [] => t = [e0; e1; e2] ∧ o = Blocked
              | r3 :: env4 =>
                  let e3 := (EvListen (ret r0) 1, r3) in
                  if ret r3 <? 0
                  then t = [e0; e1; e2; e3] ++ closes lfd
                       ∧ o = Raised (what_of "listen" e3)
                  else t = [e0; e1; e2; e3] ∧ o = Done (MkTcpServer lfd) ∧ rest = env4
              end
          end
      end
  end.

Definition banner : entry :=
  (EvPrint Stdout ("=== TCP Ping-Pong ===" +:+ LF), no_answer).

Definition done_line : entry :=
  (EvPrint Stdout (LF +:+ "=== Done ===" +:+ LF), no_answer).

(** What follows [fork] in the child. *)
Definition child_cases (lfd : Socket) (env : list response) (t : trace)
    (o : outcome Z) : Prop :=
  ∃ tb ob restb,
    run process_b env = (tb, ob, restb)
    ∧ match ob with
      | Done _ => t = tb ∧ o = Exited 0
      | Raised w => t = tb ++ closes lfd ∧ o = Raised w
      | _ => t = tb ∧ o = stopped ob
      end.

(** What follows [fork] in the parent, whose child is [pid]. *)
Definition parent_cases (lfd : Socket) (pid : Z) (env : list response) (t : trace)
    (o : outcome Z) : Prop :=
  match env with
  | [] => t = [] ∧ o = Blocked
  | r5 :: env2 =>
      let e5 := (EvAccept (fd_ lfd), r5) in
      if ret r5 <? 0 then t = e5 :: closes lfd ∧ o = Raised (what_of "accept" e5) else
      ∃ ta oa resta,
        run (process_a (MkSocket (ret r5))) env2 = (ta, oa, resta)
        ∧ match oa with
          | Done _ =>
              match resta with
              | [] => t = e5 :: ta ∧ o = Blocked
              | r6 :: _ =>
                  t = e5 :: ta ++ [(EvWaitpid pid, r6); done_line] ++ closes lfd
                  ∧ o = Done 0
              end
          | Raised w => t = e5 :: ta ++ closes lfd ∧ o = Raised w
          | _ => t = e5 :: ta ∧ o = stopped oa
          end
  end.

(** The runs of the [try] block of [main]. *)
Definition main_try_cases (env : list response) (t : trace) (o : outcome Z) : Prop :=
  ∃ ts os env0,
    run TcpServer_ctor env = (ts, os, env0)
    ∧ match os with
      | Done srv =>
          let lfd := listen_fd_ srv in
          match env0 with
          | [] => t = banner :: ts ∧ o = Blocked
          | r4 :: env1 =>
              let e4 := (EvFork, r4) in
              if ret r4 <? 0
              then t = banner :: ts ++ e4 :: closes lfd ∧ o = Raised (what_of "fork" e4)
              else
                ∃ t', t = banner :: ts ++ e4 :: t'
                      ∧ if ret r4 =? 0 then child_cases lfd env1 t' o
                        else parent_cases lfd (ret r4) env1 t' o
          end
      | _ => t = banner :: ts ∧ o = stopped os
      end.

(** ** After a failure *)

(** A call made while an error is handled: closing a descriptor, and the
    report on the error stream. *)
Definition cleanup (x : entry) : bool :=
  match x.1 with
  | EvClose _ | EvPrint Stderr _ => true
  | _ => false
  end.

(** After a call that failed its test, nothing but [cleanup]. *)
Fixpoint fail_fast (t : trace) : bool :=
  match t with
  | [] => true
  | x :: t' =>
      match failure x with Some _ => forallb cleanup t' | None => true end
      && fail_fast t'
  end.

(** What the loop of a role leaves on the trace after its rounds: the
    closing print when all rounds were made. *)
Definition finished (txt : string) (o : outcome unit) : trace :=
  match o with Done _ => [(EvPrint Stdout txt, no_answer)] | _ => [] end.

(** ** Messages without a terminator *)

(** A read that the source accepts and that stored no null in the buffer. *)
Definition unterminated (x : entry) : bool :=
  received x && null_free (take 128 (data x.2)).

(** ** The two sides of [fork] *)

(** The calls the constructor of [TcpServer] may make. *)
Definition ctor_call (x : entry) : bool :=
  match x.1 with
  | EvSocket | EvSetsockopt _ | EvBind _ _ | EvListen _ _ | EvClose _ => true
  | _ => false
  end.

(** The calls the child may make after [fork]: those of the Responder on
    its socket [fd], dialling the port of the server, and closing the
    listening socket [lfd] it inherited. *)
Definition child_call (lfd fd : Z) (x : entry) : bool :=
  match x.1 with
  | EvSocket => true
  | EvInetPton addr => String.eqb addr "127.0.0.1"
  | EvConnect fd' addr port => (fd' =? fd) && String.eqb addr "127.0.0.1" && (port =? PORT)
  | EvSend fd' _ | EvRecv fd' _ => fd' =? fd
  | EvClose fd' => (fd' =? fd) || (fd' =? lfd)
  | EvPrint _ _ | EvSleep _ | EvStack _ => true
  | _ => false
  end.

(** The calls the parent may make after [fork]: [accept] on the listening
    socket [lfd], those of the Initiator on the connection [fd], [waitpid]
    for the child [pid], and closing the two sockets. *)
Definition parent_call (lfd pid fd : Z) (x : entry) : bool :=
  match x.1 with
  | EvAccept fd' => fd' =? lfd
  | EvWaitpid pid' => pid' =? pid
  | EvSend fd' _ | EvRecv fd' _ => fd' =? fd
  | EvClose fd' => (fd' =? fd) || (fd' =? lfd)
  | EvPrint _ _ | EvSleep _ | EvStack _ => true
  | _ => false
  end.

(** ** The log of the rounds *)

(** The line that opens round [k] of the role [tag]. *)
Definition header (tag : string) (k : Z) : entry :=
  (EvPrint Stdout
     (LF +:+ "--- Iteration " +:+ pretty k +:+ " (" +:+ tag +:+ ") ---" +:+ LF),
   no_answer).

(** [txt] begins with [pre]. *)
Fixpoint starts_with (pre txt : string) : bool :=
  match pre, txt with
  | EmptyString, _ => true
  | String a pre', String b txt' => Ascii.eqb a b && starts_with pre' txt'
  | String _ _, EmptyString => false
  end.

Definition is_header (x : entry) : bool :=
  match x.1 with
  | EvPrint Stdout txt => starts_with (LF +:+ "--- Iteration ") txt
  | _ => false
  end.

(** The lines that open a round, in the order they were printed. *)
Definition headers (t : trace) : trace := List.filter is_header t.

(** ** Scripts under which a role completes *)

(** What [recv_str] returns when the buffer held [stack] and the read is
    answered with [r]; [None] when it throws or its behaviour is
    undefined. *)
Definition heard (stack r : response) : option (list byte) :=
  if ret r <=? 0 then None else c_str (store (take 128 (data r)) (data stack)).

(** The answers one round asks for: to the write, for the buffer, and to
    the read. *)
Record round := Round { to_send : response; at_buf : response; to_recv : response }.

(** The write is accepted and the read yields a string, whatever it says. *)
Definition good (r : round) : bool :=
  (0 <=? ret (to_send r)) && bool_decide (is_Some (heard (at_buf r) (to_recv r))).

(** The order in which each role asks. *)
Definition a_answers (r : round) : list response := [to_send r; at_buf r; to_recv r].
Definition b_answers (r : round) : list response := [at_buf r; to_recv r; to_send r].

(** ** The text on the standard output *)

(** What the process wrote to [std::cout], in one piece. *)
Fixpoint stdout_text (t : trace) : string :=
  match t with
  | [] => EmptyString
  | x :: t' =>
      match x.1 with
      | EvPrint Stdout txt => txt +:+ stdout_text t'
      | _ => stdout_text t'
      end
  end.

Definition ends_with (s suffix : string) : Prop := ∃ pre, s = pre +:+ suffix.

(** The line that reports success, and its last six characters. *)
Definition done_text : string := LF +:+ "=== Done ===" +:+ LF.
Definition done_tail : string := "e ===" +:+ LF.

(** A text whose last six characters are not those of [done_text]. *)
Definition closing (s : string) : Prop :=
  ∃ pre c, s = pre +:+ c ∧ String.length c = 6%nat ∧ String.eqb c done_tail = false.

(** A call that leaves the standard output alone, or ends what it writes
    in another way than [done_text] ends. *)
Definition plain (x : entry) : Prop :=
  match x.1 with
  | EvPrint Stdout txt => closing txt
  | _ => True
  end.

(** ** Tactics *)

(** Symbolic execution of [run] on a script that is not known: by cases on
    the script and on the tests of the source. *)
Ltac crunch :=
  repeat (simpl in *;
    match goal with
    | H : (_, _, _) = (_, _, _) |- _ => inversion H; clear H; subst
    | H : context [match ?env with [] => _ | _ :: _ => _ end] |- _ => destruct env
    | H : context [if ?b then _ else _] |- _ => destruct b eqn:?
    | H : context [match ?o with Some _ => _ | None => _ end] |- _ => destruct o eqn:?
    end).

Ltac unfold_calls :=
  unfold send_str, recv_str, sys_error, print, sleep, close, call in *.

(** The tests met on the path, as facts about the answers. *)
Ltac tests :=
  repeat match goal with
    | H : (_ <? _) = true |- _ => apply Z.ltb_lt in H
    | H : (_ <? _) = false |- _ => apply Z.ltb_ge in H
    | H : (_ <=? _) = true |- _ => apply Z.leb_le in H
    | H : (_ <=? _) = false |- _ => apply Z.leb_gt in H
    end.

(** Decides the tests in the goal from the facts. *)
Ltac decide_tests :=
  repeat match goal with
    | |- context [?a <? ?b] => destruct (Z.ltb_spec a b); try lia
    | |- context [?a <=? ?b] => destruct (Z.leb_spec a b); try lia
    end.

Ltac entries :=
  repeat (first [apply Forall_nil_2 | apply Forall_cons_2]);
  unfold loop_call, on_wire, accepted, explains, what_of, failure; simpl;
  decide_tests; try done; try (by intros ? [= <-]).

(** One of the calls listed failed its test. *)
Ltac some_failed :=
  repeat first
    [ apply Exists_cons_hd; unfold failed, failure; simpl; decide_tests; done
    | apply Exists_cons_tl ].

Ltac summary :=
  tests; split;
  [ unfold kinds, kind_of, received, is_send, is_recv; simpl; decide_tests; simpl;
    first [done | by eexists]
  | try done; intros _;
    unfold kinds, kind_of, received, is_send, is_recv; simpl; decide_tests; done
  | entries
  | try done; intros _; entries
  | entries
  | try done; intros ? _; some_failed
  | done ].

(** * Properties *)

(** ** How [run] treats the combinators *)

(** What follows a program that stopped with outcome [o]. *)
Definition and_then {A B} (r : trace * outcome A * list response)
    (f : A -> list response -> trace * outcome B * list response)
  : trace * outcome B * list response :=
  let '(t, o, rest) := r in
  match o with
  | Done a => let '(t', o', rest') := f a rest in (t ++ t', o', rest')
  | Raised w => (t, Raised w, rest)
  | Exited c => (t, Exited c, rest)
  | UB => (t, UB, rest)
  | Blocked => (t, Blocked, rest)
  end.

Lemma run_bind {A B} (p : prog A) (f : A -> prog B) env :
  run (bind p f) env = and_then (run p env) (fun a rest => run (f a) rest).
Proof.
  revert env; induction p as [a|w|c| |e k IH]; intros env; simpl.
  - by destruct (run (f a) env) as [[t o] rest].
  - done.
  - done.
  - done.
  - destruct (silent e).
    + rewrite IH. destruct (run (k no_answer) env) as [[t o] rest]; simpl.
      destruct o; try done. by destruct (run (f a) rest) as [[t' o'] rest'].
    + destruct env as [|r env]; [done|]. rewrite IH.
      destruct (run (k r) env) as [[t o] rest]; simpl.
      destruct o; try done. by destruct (run (f a) rest) as [[t' o'] rest'].
Qed.

Lemma run_mbind {A B} (p : prog A) (f : A -> prog B) env :
  run (p ≫= f) env = and_then (run p env) (fun a rest => run (f a) rest).
Proof. apply run_bind. Qed.

Lemma run_scope {A} (p : prog A) d env :
  run (scope p d) env =
    let '(t, o, rest) := run p env in
    match o with
    | Done a => and_then (t, Done tt, rest) (fun _ rest => and_then (run d rest) (fun _ rest => ([], Done a, rest)))
    | Raised w => and_then (t, Done tt, rest) (fun _ rest => and_then (run d rest) (fun _ rest => ([], Raised w, rest)))
    | _ => (t, o, rest)
    end.
Proof.
  revert env; induction p as [a|w|c| |e k IH]; intros env; simpl.
  - rewrite run_bind. by destruct (run d env) as [[t []] rest].
  - rewrite run_bind. by destruct (run d env) as [[t []] rest].
  - done.
  - done.
  - destruct (silent e).
    + rewrite IH. destruct (run (k no_answer) env) as [[t o] rest]; simpl.
      destruct o; try done.
      * by destruct (run d rest) as [[t' []] rest'].
      * by destruct (run d rest) as [[t' []] rest'].
    + destruct env as [|r env]; [done|]. rewrite IH.
      destruct (run (k r) env) as [[t o] rest]; simpl.
      destruct o; try done.
      * by destruct (run d rest) as [[t' []] rest'].
      * by destruct (run d rest) as [[t' []] rest'].
Qed.

Lemma run_try_catch {A} (p : prog A) h env :
  run (try_catch p h) env =
    let '(t, o, rest) := run p env in
    match o with
    | Raised w => let '(t', o', rest') := run (h w) rest in (t ++ t', o', rest')
    | _ => (t, o, rest)
    end.
Proof.
  revert env; induction p as [a|w|c| |e k IH]; intros env; simpl.
  - done.
  - by destruct (run (h w) env) as [[t o] rest].
  - done.
  - done.
  - destruct (silent e).
    + rewrite IH. destruct (run (k no_answer) env) as [[t o] rest]; simpl.
      destruct o; try done. by destruct (run (h what) rest) as [[t' o'] rest'].
    + destruct env as [|r env]; [done|]. rewrite IH.
      destruct (run (k r) env) as [[t o] rest]; simpl.
      destruct o; try done. by destruct (run (h what) rest) as [[t' o'] rest'].
Qed.

(** ** Loops *)

Lemma run_for_loop body n i env t o rest :
  run (for_loop n i body) env = (t, o, rest) -> iterates body n i t o.
Proof.
  revert i env t o rest; induction n as [|n IH]; intros i env t o rest; simpl.
  - intros [= <- <- _]. constructor.
  - rewrite run_mbind. destruct (run (body i) env) as [[t1 o1] rest1] eqn:H1; simpl.
    destruct o1 as [[]| | | |].
    + destruct (run (for_loop n (i + 1) body) rest1) as [[t2 o2] rest2] eqn:H2.
      intros [= <- <- _]. eapply iterates_next; eauto.
    + intros [= <- <- _]. by eapply iterates_stop.
    + intros [= <- <- _]. by eapply iterates_stop.
    + intros [= <- <- _]. by eapply iterates_stop.
    + intros [= <- <- _]. by eapply iterates_stop.
Qed.

Lemma kinds_app t1 t2 : kinds (t1 ++ t2) = kinds t1 ++ kinds t2.
Proof. apply omap_app. Qed.

Lemma kinds_cons x t :
  kinds (x :: t) = match kind_of x with Some k => k :: kinds t | None => kinds t end.
Proof. unfold kinds; simpl. by destruct (kind_of x). Qed.

Lemma accepted_explains {A} (o : outcome A) t :
  Forall accepted t -> Forall (explains o) t.
Proof.
  intros H. eapply Forall_impl; [done|].
  intros x Hx name. unfold accepted in Hx. congruence.
Qed.

(** A loop whose rounds conform to one turn of the cycle conforms to [n]
    turns. *)
Lemma iterates_conforms body a b P n i t o :
  (∀ i env t o rest, run (body i) env = (t, o, rest) -> conforms 1 a b P t o) ->
  iterates body n i t o -> conforms n a b P t o.
Proof.
  intros Hbody.
  induction 1 as [i|n i env t o rest Hrun Ho|n i env t rest t' o Hrun Hit IH].
  - by split.
  - destruct (Hbody _ _ _ _ _ Hrun) as [H1 H2 H3 H4 H5 H6 H7].
    split; try done.
    etrans; [apply H1|]. by exists (cycle n a b).
  - destruct (Hbody _ _ _ _ _ Hrun) as [H1 H2 H3 H4 H5 H6 H7].
    destruct IH as [I1 I2 I3 I4 I5 I6 I7].
    change (cycle (S n) a b) with (cycle 1 a b ++ cycle n a b).
    split; try done.
    + rewrite kinds_app, H2 by done. by apply prefix_app.
    + intros ->. rewrite kinds_app, H2, I2 by done. done.
    + by apply Forall_app.
    + intros ->. apply Forall_app; auto.
    + apply Forall_app. split; [|done]. apply accepted_explains; auto.
    + intros w Hw. apply Exists_app. right. eauto.
Qed.

(** ** Positions *)

Lemma positions_none {A} (P : A -> bool) l :
  Forall (fun x => P x = false) l -> positions P l = [].
Proof. induction 1 as [|x l Hx _ IH]; simpl; [done|]. by rewrite Hx, IH. Qed.

Lemma positions_app {A} (P : A -> bool) l1 l2 :
  positions P (l1 ++ l2) =
    positions P l1 ++ ((fun p => length l1 + p)%nat <$> positions P l2).
Proof.
  induction l1 as [|x l1 IH]; simpl.
  - by rewrite list_fmap_id.
  - rewrite IH, fmap_app, <-app_assoc. do 2 f_equal.
    rewrite <-list_fmap_compose. done.
Qed.

(** ** One round of each role, under every script *)

Lemma round_a_run conn i env t o rest :
  run (round_a conn i) env = (t, o, rest) ->
  conforms 1 Snd Rcv (loop_call (fd_ conn) "PING") t o.
Proof.
  unfold round_a; unfold_calls. intros H. crunch; summary.
Qed.

Lemma round_b_run sock i env t o rest :
  run (round_b sock i) env = (t, o, rest) ->
  conforms 1 Rcv Snd (loop_call (fd_ sock) "PONG") t o.
Proof.
  unfold round_b; unfold_calls. intros H. crunch; summary.
Qed.

(** ** The two roles, under every script *)

Lemma run_print s txt env :
  run (print s txt) env = ([(EvPrint s txt, no_answer)], Done tt, env).
Proof. done. Qed.

Lemma run_sleep secs env :
  run (sleep secs) env = ([(EvSleep secs, no_answer)], Done tt, env).
Proof. done. Qed.

Lemma run_Socket_dtor s env : run (Socket_dtor s) env = (closes s, Done tt, env).
Proof. unfold Socket_dtor, closes. by destruct (0 <=? fd_ s). Qed.

Lemma run_sys_error {A} msg errno env :
  run (sys_error msg errno : prog A) env = ([], Raised (msg +:+ ": " +:+ errno), env).
Proof. done. Qed.

Lemma run_call_bind {A} e (f : response -> prog A) env :
  silent e = false ->
  run (call e ≫= f) env =
    match env with
    | [] => ([], Blocked, [])
    | r :: env' => let '(t, o, rest) := run (f r) env' in ((e, r) :: t, o, rest)
    end.
Proof. intros He. simpl. by rewrite He. Qed.

Lemma run_scope_socket {A} (p : prog A) s env :
  run (scope p (Socket_dtor s)) env =
    let '(t, o, rest) := run p env in (t ++ unwinds o s, o, rest).
Proof.
  rewrite run_scope. destruct (run p env) as [[t o] rest].
  destruct o; simpl; rewrite ?run_Socket_dtor; simpl; by rewrite ?app_nil_r.
Qed.

Lemma kinds_closes s : kinds (closes s) = [].
Proof. unfold closes. by destruct (0 <=? fd_ s). Qed.

Lemma Forall_closes (P : entry -> Prop) s :
  P (EvClose (fd_ s), no_answer) -> Forall P (closes s).
Proof. intros HP. unfold closes. destruct (0 <=? fd_ s); by repeat constructor. Qed.

Lemma kinds_unwinds {A} (o : outcome A) s : kinds (unwinds o s) = [].
Proof. destruct o; simpl; by rewrite ?kinds_closes. Qed.

Lemma Forall_unwinds {A} (P : entry -> Prop) (o : outcome A) s :
  P (EvClose (fd_ s), no_answer) -> Forall P (unwinds o s).
Proof. intros HP. destruct o; simpl; by try apply Forall_closes. Qed.

(** Calls that are not transport calls and pass their test leave the
    summary as it is. *)
Lemma conforms_cons n a b (P : entry -> Prop) x t o :
  kind_of x = None -> P x -> accepted x ->
  conforms n a b P t o -> conforms n a b P (x :: t) o.
Proof.
  intros Hk Hw Ha [H1 H2 H3 H4 H5 H6 H7].
  split; rewrite ?kinds_cons, ?Hk; try done.
  - by constructor.
  - intros ->. constructor; auto.
  - constructor; [|done]. intros name. unfold accepted in Ha. congruence.
  - intros w Hr. apply Exists_cons_tl. eauto.
Qed.

Lemma conforms_snoc n a b (P : entry -> Prop) t t' o :
  kinds t' = [] -> Forall P t' -> Forall accepted t' ->
  conforms n a b P t o -> conforms n a b P (t ++ t') o.
Proof.
  intros Hk Hw Ha [H1 H2 H3 H4 H5 H6 H7].
  split; rewrite ?kinds_app, ?Hk, ?app_nil_r; try done.
  - by apply Forall_app.
  - intros ->. apply Forall_app; auto.
  - apply Forall_app. split; [done|]. by apply accepted_explains.
  - intros w Hr. apply Exists_app. left. eauto.
Qed.

Lemma conforms_nil n a b (P : entry -> Prop) : conforms n a b P [] Blocked.
Proof. split; try done. apply prefix_nil. Qed.

(** A call that fails its test as the last call of a run. *)
Lemma conforms_failed n a b (P : entry -> Prop) x name t' :
  kind_of x = None -> P x -> failure x = Some name ->
  kinds t' = [] -> Forall P t' -> Forall accepted t' ->
  conforms n a b P (x :: t') (Raised (what_of name x)).
Proof.
  intros Hk HP Hf Hk' HP' Ha'.
  split; rewrite ?kinds_cons, ?Hk, ?Hk'; try done.
  - apply prefix_nil.
  - by constructor.
  - constructor; [|by apply accepted_explains].
    intros name'. rewrite Hf. by intros [= <-].
  - intros w _. apply Exists_cons_hd. unfold failed. by rewrite Hf.
Qed.

Lemma conforms_weaken n a b (P Q : entry -> Prop) t o :
  (∀ x, P x -> Q x) -> conforms n a b P t o -> conforms n a b Q t o.
Proof.
  intros HPQ [H1 H2 H3 H4 H5 H6 H7]. split; try done.
  eapply Forall_impl; [apply H3|done].
Qed.

(** The loop of a role between its two prints. *)
Lemma role_loop_run n body a b fd token txt1 txt2 env t o rest :
  (∀ i env t o rest, run (body i) env = (t, o, rest) ->
     conforms 1 a b (loop_call fd token) t o) ->
  run (print Stdout txt1 ;; for_loop n 0 body ;; print Stdout txt2) env = (t, o, rest) ->
  conforms n a b (loop_call fd token) t o.
Proof.
  intros Hbody. rewrite run_mbind, run_print. cbn [and_then].
  rewrite run_mbind.
  destruct (run (for_loop n 0 body) env) as [[tl ol] restl] eqn:Hl.
  apply run_for_loop in Hl.
  apply (iterates_conforms _ a b (loop_call fd token)) in Hl; [|done].
  destruct ol as [[]| | | |]; cbn [and_then]; rewrite ?run_print;
    cbn [and_then app]; intros [= <- <- _]; apply conforms_cons; try done.
  by apply conforms_snoc; [done|repeat constructor..|].
Qed.

Lemma process_a_run conn env t o rest :
  run (process_a conn) env = (t, o, rest) ->
  conforms 6 Snd Rcv (role_call (fd_ conn) "PING") t o.
Proof.
  unfold process_a. rewrite run_scope_socket.
  destruct (run _ env) as [[t0 o0] rest0] eqn:Hl. intros [= <- <- _].
  apply (role_loop_run _ _ Snd Rcv (fd_ conn) "PING") in Hl; [|apply round_a_run].
  apply conforms_snoc.
  - apply kinds_unwinds.
  - apply Forall_unwinds. by right.
  - by apply Forall_unwinds.
  - eapply conforms_weaken; [|done]. by left.
Qed.

Lemma process_b_cases env t o rest :
  run process_b env = (t, o, rest) -> process_b_run_cases env t o rest.
Proof.
  unfold process_b, process_b_run_cases. rewrite run_call_bind by done.
  destruct env as [|r0 env]; [by intros [= <- <- _]|].
  rewrite run_mbind. unfold Socket_of_fd.
  destruct (ret r0 <? 0).
  { rewrite run_sys_error. cbn [and_then]. by intros [= <- <- _]. }
  cbn [run and_then app]. rewrite run_scope_socket.
  rewrite run_call_bind by done.
  destruct env as [|r1 env]; [by intros [= <- <- _]|].
  rewrite run_mbind. destruct (ret r1 <=? 0).
  { rewrite run_sys_error. cbn [and_then]. by intros [= <- <- _]. }
  cbn [run and_then app].
  rewrite run_mbind, run_sleep. cbn [and_then app].
  rewrite run_call_bind by done.
  destruct env as [|r2 env]; [by intros [= <- <- _]|].
  rewrite run_mbind. destruct (ret r2 <? 0).
  { rewrite run_sys_error. cbn [and_then]. by intros [= <- <- _]. }
  cbn [run and_then app fd_].
  fold (b_loop (MkSocket (ret r0))).
  destruct (run (b_loop _) env) as [[tl ol] restl] eqn:Hl.
  intros [= <- <- <-]. by exists tl.
Qed.

Lemma b_loop_run sock env t o rest :
  run (b_loop sock) env = (t, o, rest) ->
  conforms 6 Rcv Snd (loop_call (fd_ sock) "PONG") t o.
Proof. apply role_loop_run, round_b_run. Qed.

Lemma process_b_run env t o rest :
  run process_b env = (t, o, rest) ->
  conforms 6 Rcv Snd (b_call (socket_of env)) t o.
Proof.
  intros Hrun. apply process_b_cases in Hrun. unfold process_b_run_cases in Hrun.
  destruct env as [|r0 env]; [destruct Hrun as [-> ->]; apply conforms_nil|].
  unfold socket_of. simpl default.
  assert (∀ fd, b_call fd (EvClose fd, no_answer)) as Hclose by (by left; right).
  destruct (ret r0 <? 0) eqn:H0.
  { destruct Hrun as [-> ->]. apply conforms_failed; try done.
    - right; by left.
    - unfold failure; simpl. by rewrite H0. }
  assert (accepted (EvSocket, r0)) as A0 by (unfold accepted, failure; simpl; by rewrite H0).
  destruct env as [|r1 env];
    [destruct Hrun as [-> ->]; apply conforms_cons; try done;
      [by right; left|apply conforms_nil]|].
  destruct (ret r1 <=? 0) eqn:H1.
  { destruct Hrun as [-> ->]. apply conforms_cons; [done|by right; left|done|].
    apply conforms_failed; try done.
    - right; right; by left.
    - unfold failure; simpl. by rewrite H1.
    - apply kinds_closes.
    - by apply Forall_closes.
    - by apply Forall_closes. }
  assert (accepted (EvInetPton "127.0.0.1", r1)) as A1
    by (unfold accepted, failure; simpl; by rewrite H1).
  assert (b_call (ret r0) (EvSleep 1, no_answer)) as Hsleep by (by left; left).
  destruct env as [|r2 env].
  { destruct Hrun as [-> ->].
    apply conforms_cons; [done|by right; left|done|].
    apply conforms_cons; [done|by right; right; left|done|].
    apply conforms_cons; [done..|]. apply conforms_nil. }
  destruct (ret r2 <? 0) eqn:H2.
  { destruct Hrun as [-> ->].
    apply conforms_cons; [done|by right; left|done|].
    apply conforms_cons; [done|by right; right; left|done|].
    apply conforms_cons; [done..|].
    apply conforms_failed; try done.
    - right; right; by right.
    - unfold failure; simpl. by rewrite H2.
    - apply kinds_closes.
    - by apply Forall_closes.
    - by apply Forall_closes. }
  destruct Hrun as (tl & Hl & ->). apply b_loop_run in Hl.
  apply conforms_cons; [done|by right; left|done|].
  apply conforms_cons; [done|by right; right; left|done|].
  apply conforms_cons; [done..|].
  apply conforms_cons; [done|by right; right; right|
    unfold accepted, failure; simpl; by rewrite H2|].
  apply conforms_snoc.
  - apply kinds_unwinds.
  - by apply Forall_unwinds.
  - by apply Forall_unwinds.
  - eapply conforms_weaken; [|done]. intros x Hx. by left; left.
Qed.

Lemma role_call_on_wire fd token x : role_call fd token x -> on_wire fd token x.
Proof.
  unfold role_call, loop_call, on_wire. destruct x as [[] r]; simpl; try done.
  - by intros [|].
  - by intros [|].
Qed.

Lemma b_call_on_wire fd x : b_call fd x -> on_wire fd "PONG" x.
Proof.
  intros [H|H]; [by apply role_call_on_wire|].
  unfold on_wire. by destruct H as [->|[->| ->]].
Qed.

(** ** Alternation *)

Lemma kind_of_Some x k :
  kind_of x = Some k -> sat k x = true ∧ ∀ k', k' ≠ k -> sat k' x = false.
Proof.
  unfold kind_of, received. destruct x as [[] r]; simpl; try done.
  - intros [= <-]. split; [done|]. by intros [] ?.
  - destruct (0 <? ret r) eqn:Hr; [|done]. intros [= <-].
    split; [by simpl; unfold received; simpl; rewrite Hr|]. by intros [] ?.
Qed.

Lemma kind_of_None x k : kind_of x = None -> sat k x = false.
Proof.
  unfold kind_of, received. destruct x as [[] r], k; simpl; try done.
  unfold received; simpl. by destruct (0 <? ret r).
Qed.

Lemma cycle_S n a b : cycle (S n) a b = a :: b :: cycle n a b.
Proof. done. Qed.

Lemma kinds_alt a b t :
  a ≠ b ->
  ∀ n, (kinds t `prefix_of` cycle n a b -> alt (sat a) (sat b) t)
     ∧ (kinds t `prefix_of` b :: cycle n a b -> alt (sat b) (sat a) t).
Proof.
  intros Hab. induction t as [|x t IH]; intros n; [split; constructor|].
  rewrite kinds_cons. destruct (kind_of x) as [k|] eqn:Hk.
  - destruct (kind_of_Some _ _ Hk) as [Hsat Hother]. split; intros Hp.
    + destruct n as [|n]; [by apply prefix_nil_inv in Hp|].
      rewrite cycle_S in Hp.
      pose proof (prefix_cons_inv_1 _ _ _ _ Hp) as ->.
      apply prefix_cons_inv_2 in Hp.
      apply alt_hit; [done|by apply Hother|by apply (IH n)].
    + pose proof (prefix_cons_inv_1 _ _ _ _ Hp) as ->.
      apply prefix_cons_inv_2 in Hp.
      apply alt_hit; [done|apply Hother; congruence|by apply (IH n)].
  - split; intros Hp; (apply alt_skip; [by apply kind_of_None..|by apply (IH n)]).
Qed.

Lemma kinds_counts a b t :
  a ≠ b ->
  ∀ n, (kinds t = cycle n a b ->
          length (positions (sat a) t) = n ∧ length (positions (sat b) t) = n)
     ∧ (kinds t = b :: cycle n a b ->
          length (positions (sat a) t) = n ∧ length (positions (sat b) t) = S n).
Proof.
  intros Hab. induction t as [|x t IH]; intros n.
  { split; [|done]. destruct n; [done|by rewrite cycle_S]. }
  rewrite kinds_cons. simpl positions. rewrite !length_app, !length_fmap.
  destruct (kind_of x) as [k|] eqn:Hk.
  - destruct (kind_of_Some _ _ Hk) as [Hsat Hother]. split; intros Hp.
    + destruct n as [|n]; [done|]. rewrite cycle_S in Hp. injection Hp as -> Hp.
      rewrite Hsat, (Hother b) by done. simpl.
      destruct (proj2 (IH n) Hp) as [-> ->]. done.
    + injection Hp as -> Hp.
      rewrite Hsat, (Hother a) by congruence. simpl.
      destruct (proj1 (IH n) Hp) as [-> ->]. done.
  - rewrite !(kind_of_None x) by done. simpl. apply IH.
Qed.

Lemma lookup_fmap_S (l : list nat) i p :
  (S <$> l) !! i = Some p -> ∃ p', p = S p' ∧ l !! i = Some p'.
Proof.
  rewrite list_lookup_fmap. destruct (l !! i) as [p'|]; [|done].
  intros [= <-]. by exists p'.
Qed.

(** In an alternating trace the [i]-th entry of the first kind comes before
    the [i]-th of the second, which comes before the next of the first. *)
Lemma alt_order a b t :
  alt a b t ->
  (∀ i pa pb, positions a t !! i = Some pa -> positions b t !! i = Some pb ->
     (pa < pb)%nat)
  ∧ (∀ i pa pb, positions b t !! i = Some pb -> positions a t !! S i = Some pa ->
     (pb < pa)%nat).
Proof.
  induction 1 as [a b|a b x t Ha Hb _ [IH1 IH2]|a b x t Ha Hb _ [IH1 IH2]].
  - by split.
  - simpl. rewrite Ha, Hb. simpl. split; intros i pa pb H1 H2;
      apply lookup_fmap_S in H1 as (? & -> & H1);
      apply lookup_fmap_S in H2 as (? & -> & H2);
      apply ->Nat.succ_lt_mono; eauto.
  - simpl. rewrite Ha, Hb. simpl. split; intros i pa pb H1 H2.
    + apply lookup_fmap_S in H2 as (pb' & -> & H2).
      destruct i as [|i]; simpl in H1.
      * injection H1 as <-. lia.
      * apply lookup_fmap_S in H1 as (pa' & -> & H1).
        apply ->Nat.succ_lt_mono. eauto.
    + apply lookup_fmap_S in H1 as (pb' & -> & H1). simpl in H2.
      apply lookup_fmap_S in H2 as (pa' & -> & H2).
      apply ->Nat.succ_lt_mono. eauto.
Qed.

Lemma alt_suffix a b t1 t : alt a b (t1 ++ t) -> alt a b t ∨ alt b a t.
Proof.
  revert a b; induction t1 as [|x t1 IH]; intros a b; simpl; [by left|].
  inversion 1; subst; [by apply IH|].
  destruct (IH b a) as [|]; auto.
Qed.

Lemma alt_next a b t2 y t3 :
  alt b a (t2 ++ y :: t3) -> a y = true -> ∃ r, r ∈ t2 ∧ b r = true.
Proof.
  induction t2 as [|x t2 IH]; simpl; inversion 1; subst; intros Hy.
  - congruence.
  - congruence.
  - destruct IH as (r & Hr & Hb); [done..|]. exists r. split; [by right|done].
  - exists x. split; [by left|done].
Qed.

(** Two entries of one kind have an entry of the other kind between them. *)
Lemma alt_between a b t t1 x t2 y t3 :
  alt a b t ∨ alt b a t -> t = t1 ++ x :: t2 ++ y :: t3 ->
  a x = true -> a y = true -> ∃ r, r ∈ t2 ∧ b r = true.
Proof.
  intros Halt -> Hx Hy.
  assert (alt a b (x :: t2 ++ y :: t3) ∨ alt b a (x :: t2 ++ y :: t3)) as [H|H].
  { destruct Halt as [H|H]; apply alt_suffix in H; tauto. }
  - inversion H; subst; [congruence|]. by eapply alt_next.
  - inversion H; subst; congruence.
Qed.

(** ** The rounds of the Initiator and of the Responder *)

Lemma accepted_positions t :
  Forall accepted t -> positions is_recv t = positions received t.
Proof.
  induction 1 as [|[e r] t Hx _ IH]; [done|]. simpl. rewrite IH. f_equal.
  unfold received, is_recv, accepted, failure in *. destruct e; simpl in *; try done.
  by destruct (Z.leb_spec (ret r) 0), (Z.ltb_spec 0 (ret r)); try lia.
Qed.

Lemma conforms_done n a b P t :
  a ≠ b -> conforms n a b P t (Done tt) ->
  length (positions (sat a) t) = n ∧ length (positions (sat b) t) = n
  ∧ positions is_recv t = positions received t
  ∧ ∀ i, (i < n)%nat -> ∃ pa pb,
      positions (sat a) t !! i = Some pa ∧ positions (sat b) t !! i = Some pb
      ∧ (pa < pb)%nat.
Proof.
  intros Hab [Hp Hk _ Hacc _ _ _]. specialize (Hk eq_refl). specialize (Hacc eq_refl).
  destruct (proj1 (kinds_counts a b t Hab n) Hk) as [Ha Hb].
  split; [done|]. split; [done|]. split; [by apply accepted_positions|].
  intros i Hi.
  destruct (lookup_lt_is_Some_2 (positions (sat a) t) i) as [pa Hpa]; [lia|].
  destruct (lookup_lt_is_Some_2 (positions (sat b) t) i) as [pb Hpb]; [lia|].
  exists pa, pb. split; [done|]. split; [done|].
  destruct (alt_order (sat a) (sat b) t) as [Hord _];
    [by apply (kinds_alt a b t Hab n)|].
  by eapply Hord.
Qed.

(** C1.  In every run of [process_a] that returns, the Initiator made exactly
    [MAX_ITERATIONS] = 6 sends, each of them of "PING" with its terminator on
    its connection, and exactly 6 receives, each of them accepted as a
    message; and for every round [i] the [i]-th receive stands in the trace
    strictly after the [i]-th send. *)
Theorem initiator_rounds conn env t rest :
  run (process_a conn) env = (t, Done tt, rest) ->
  length (positions is_send t) = Z.to_nat MAX_ITERATIONS
  ∧ Forall (on_wire (fd_ conn) "PING") t
  ∧ length (positions received t) = Z.to_nat MAX_ITERATIONS
  ∧ positions is_recv t = positions received t
  ∧ ∀ i, (i < Z.to_nat MAX_ITERATIONS)%nat -> ∃ ps pr,
      positions is_send t !! i = Some ps ∧ positions received t !! i = Some pr
      ∧ (ps < pr)%nat.
Proof.
  intros Hrun. apply process_a_run in Hrun.
  destruct (conforms_done _ Snd Rcv _ _ ltac:(done) Hrun) as (Hs & Hr & Hall & Hord).
  split; [done|]. split; [|done].
  eapply Forall_impl; [apply (cf_calls _ _ _ _ _ _ Hrun)|]. apply role_call_on_wire.
Qed.

Lemma initiator_rounds_witness :
  let t := trace_of (process_a (MkSocket 4)) (concat (replicate 6 a_round_ok)) in
  length (positions is_send t) = 6%nat ∧ length (positions received t) = 6%nat.
Proof.
  destruct (initiator_rounds (MkSocket 4) (concat (replicate 6 a_round_ok))
              (trace_of (process_a (MkSocket 4)) (concat (replicate 6 a_round_ok))) [])
    as (Hs & _ & Hr & _); [reflexivity|]. by split.
Defined.

(** C2.  In every run of [process_b] that returns, the Responder made exactly
    [MAX_ITERATIONS] = 6 receives, each of them accepted as a message, and
    exactly 6 sends, each of them of "PONG" with its terminator on its
    socket; and for every round [i] the [i]-th send stands in the trace
    strictly after the [i]-th receive. *)
Theorem responder_rounds env t rest :
  run process_b env = (t, Done tt, rest) ->
  length (positions received t) = Z.to_nat MAX_ITERATIONS
  ∧ positions is_recv t = positions received t
  ∧ length (positions is_send t) = Z.to_nat MAX_ITERATIONS
  ∧ Forall (on_wire (socket_of env) "PONG") t
  ∧ ∀ i, (i < Z.to_nat MAX_ITERATIONS)%nat -> ∃ pr ps,
      positions received t !! i = Some pr ∧ positions is_send t !! i = Some ps
      ∧ (pr < ps)%nat.
Proof.
  intros Hrun. apply process_b_run in Hrun.
  destruct (conforms_done _ Rcv Snd _ _ ltac:(done) Hrun) as (Hr & Hs & Hall & Hord).
  split; [done|]. split; [done|]. split; [done|]. split; [|done].
  eapply Forall_impl; [apply (cf_calls _ _ _ _ _ _ Hrun)|]. apply b_call_on_wire.
Qed.

Lemma responder_rounds_witness :
  let t := trace_of process_b (b_dial_ok ++ concat (replicate 6 b_round_ok)) in
  length (positions received t) = 6%nat ∧ length (positions is_send t) = 6%nat.
Proof.
  destruct (responder_rounds (b_dial_ok ++ concat (replicate 6 b_round_ok))
              (trace_of process_b (b_dial_ok ++ concat (replicate 6 b_round_ok))) [])
    as (Hr & _ & Hs & _); [reflexivity|]. by split.
Defined.

(** ** Alternation in every trace *)

Lemma alt_between_at a b (t : trace) i j x y :
  alt a b t ∨ alt b a t -> (i < j)%nat ->
  t !! i = Some x -> t !! j = Some y -> a x = true -> a y = true ->
  ∃ k r, (i < k < j)%nat ∧ t !! k = Some r ∧ b r = true.
Proof.
  intros Halt Hij Hi Hj Hx Hy.
  pose proof (take_drop_middle t i x Hi) as Ht.
  assert (drop (S i) t !! (j - S i)%nat = Some y) as Hj'.
  { rewrite lookup_drop. by replace (S i + (j - S i))%nat with j by lia. }
  pose proof (take_drop_middle _ _ _ Hj') as Ht2.
  rewrite <-Ht2 in Ht.
  destruct (alt_between a b t _ x _ y _ Halt (eq_sym Ht) Hx Hy) as (r & Hr & Hb).
  apply list_elem_of_lookup in Hr as [k Hk].
  pose proof (lookup_lt_Some _ _ _ Hk) as Hlen.
  rewrite lookup_take_Some in Hk. destruct Hk as [Hk Hlt].
  rewrite lookup_drop in Hk.
  exists (S i + k)%nat, r. split; [lia|done].
Qed.

(** C3.  Whatever the environment answers and however far a role has come:
    in the trace of [process_a] every two sends have an accepted receive
    between them, and in the trace of [process_b] every two sends have an
    accepted receive between them.  Each role is run on its own against an
    arbitrary script, so nothing but the order of its own calls, with the
    receive that blocks between two sends, is used. *)
Theorem roles_alternate :
  (∀ conn env i j s1 s2,
     (i < j)%nat ->
     trace_of (process_a conn) env !! i = Some s1 -> is_send s1 = true ->
     trace_of (process_a conn) env !! j = Some s2 -> is_send s2 = true ->
     ∃ k r, (i < k < j)%nat ∧ trace_of (process_a conn) env !! k = Some r
            ∧ received r = true)
  ∧ (∀ env i j s1 s2,
     (i < j)%nat ->
     trace_of process_b env !! i = Some s1 -> is_send s1 = true ->
     trace_of process_b env !! j = Some s2 -> is_send s2 = true ->
     ∃ k r, (i < k < j)%nat ∧ trace_of process_b env !! k = Some r
            ∧ received r = true).
Proof.
  split.
  - intros conn env i j s1 s2 Hij Hi H1 Hj H2. unfold trace_of in *.
    destruct (run (process_a conn) env) as [[t o] rest] eqn:Hrun. simpl in *.
    apply process_a_run in Hrun. destruct Hrun as [Hp _ _ _ _ _ _].
    apply (alt_between_at is_send received t i j s1 s2); try done.
    left. by apply (kinds_alt Snd Rcv t ltac:(done) 6).
  - intros env i j s1 s2 Hij Hi H1 Hj H2. unfold trace_of in *.
    destruct (run process_b env) as [[t o] rest] eqn:Hrun. simpl in *.
    apply process_b_run in Hrun. destruct Hrun as [Hp _ _ _ _ _ _].
    apply (alt_between_at is_send received t i j s1 s2); try done.
    right. by apply (kinds_alt Rcv Snd t ltac:(done) 6).
Qed.

Lemma roles_alternate_witness :
  (∃ k r, (4 < k < 12)%nat
     ∧ trace_of (process_a (MkSocket 4)) (concat (replicate 6 a_round_ok)) !! k = Some r
     ∧ received r = true)
  ∧ (∃ k r, (12 < k < 20)%nat
     ∧ trace_of process_b (b_dial_ok ++ concat (replicate 6 b_round_ok)) !! k = Some r
     ∧ received r = true).
Proof.
  split.
  - eapply (proj1 roles_alternate (MkSocket 4) _ 4%nat 12%nat);
      [lia|reflexivity|reflexivity|reflexivity|reflexivity].
  - eapply (proj2 roles_alternate _ 12%nat 20%nat);
      [lia|reflexivity|reflexivity|reflexivity|reflexivity].
Defined.

(** ** [send_str] and [recv_str] *)

Lemma c_str_null pre post :
  null_free pre = true -> c_str (pre ++ x00 :: post) = Some pre.
Proof.
  induction pre as [|b pre IH]; simpl; [done|].
  intros [Hb Hpre]%andb_prop. destruct (Byte.eqb b x00); [done|].
  by rewrite IH.
Qed.

Lemma c_str_app d mem :
  null_free d = true -> c_str (d ++ mem) = (d ++.) <$> c_str mem.
Proof.
  induction d as [|b d IH]; simpl; [by destruct (c_str mem)|].
  intros [Hb Hd]%andb_prop. destruct (Byte.eqb b x00); [done|].
  rewrite IH by done. by destruct (c_str mem).
Qed.

Lemma run_recv_str sock stack r env :
  run (recv_str sock) (stack :: r :: env) =
    ([(EvStack 128, stack); (EvRecv (fd_ sock) 128, r)],
     if ret r <=? 0 then Raised ("recv" +:+ ": " +:+ text r)
     else match c_str (store (take 128 (data r)) (data stack)) with
          | Some s => Done s
          | None => UB
          end,
     env).
Proof.
  unfold recv_str, sys_error, call. simpl.
  destruct (ret r <=? 0); [done|]. by destruct (c_str _).
Qed.

(** A read that delivers a null: the string ends there. *)
Lemma recv_str_null sock stack r env pre post :
  0 < ret r -> data r = pre ++ x00 :: post -> null_free pre = true ->
  (length pre < 128)%nat ->
  run (recv_str sock) (stack :: r :: env) =
    ([(EvStack 128, stack); (EvRecv (fd_ sock) 128, r)], Done pre, env).
Proof.
  intros Hr Hd Hpre Hlen. rewrite run_recv_str.
  destruct (Z.leb_spec (ret r) 0); [lia|].
  rewrite Hd, take_app_ge by lia.
  replace (128 - length pre)%nat with (S (127 - length pre)) by lia.
  simpl take. unfold store. rewrite <-app_assoc. simpl.
  by rewrite c_str_null.
Qed.

(** C9.  [recv_str] makes one read, of at most 128 bytes, and returns what
    lies before the first null of its buffer.  When the read delivers a
    null, the bytes delivered after it are dropped: they are not in the
    result and no later call gets them.  When the read delivers no null, the
    result is the bytes delivered followed by what the buffer and the storage
    after it held before the call, up to the first null there (and the
    behaviour is undefined if there is none). *)
Theorem recv_str_single_read sock stack r env :
  (∀ env', (length (positions is_recv (trace_of (recv_str sock) env')) ≤ 1)%nat)
  ∧ trace_of (recv_str sock) (stack :: r :: env) =
      [(EvStack 128, stack); (EvRecv (fd_ sock) 128, r)]
  ∧ (∀ pre post,
       0 < ret r -> data r = pre ++ x00 :: post -> null_free pre = true ->
       (length pre < 128)%nat ->
       run (recv_str sock) (stack :: r :: env) =
         ([(EvStack 128, stack); (EvRecv (fd_ sock) 128, r)], Done pre, env))
  ∧ (0 < ret r -> null_free (data r) = true -> (length (data r) ≤ 128)%nat ->
       outcome_of (recv_str sock) (stack :: r :: env) =
         match c_str (drop (length (data r)) (data stack)) with
         | Some stale => Done (data r ++ stale)
         | None => UB
         end).
Proof.
  split; [|split; [|split]].
  - intros env'. unfold trace_of.
    destruct env' as [|s [|r' env']]; [simpl; lia..|]. by rewrite run_recv_str.
  - unfold trace_of. by rewrite run_recv_str.
  - intros pre post. apply recv_str_null.
  - intros Hr Hfree Hlen. unfold outcome_of. rewrite run_recv_str. simpl.
    destruct (Z.leb_spec (ret r) 0); [lia|].
    rewrite take_ge by lia. unfold store. rewrite c_str_app by done.
    by destruct (c_str (drop _ _)).
Qed.

Lemma recv_str_single_read_witness :
  run (recv_str (MkSocket 4))
      [holds (zeroes 128); delivers (msg0 "PONG" ++ msg0 "PONG")] =
    ([(EvStack 128, holds (zeroes 128));
      (EvRecv 4 128, delivers (msg0 "PONG" ++ msg0 "PONG"))],
     Done (list_byte_of_string "PONG"), [])
  ∧ outcome_of (recv_str (MkSocket 4))
      [holds (list_byte_of_string "0123456789" ++ zeroes 118);
       delivers (list_byte_of_string "PO")] =
    Done (list_byte_of_string "PO23456789").
Proof.
  split.
  - apply (proj1 (proj2 (proj2 (recv_str_single_read (MkSocket 4) (holds (zeroes 128))
              (delivers (msg0 "PONG" ++ msg0 "PONG")) [])))
            (list_byte_of_string "PONG") (msg0 "PONG"));
      [reflexivity|reflexivity|reflexivity|simpl; lia].
  - apply (proj2 (proj2 (proj2 (recv_str_single_read (MkSocket 4)
              (holds (list_byte_of_string "0123456789" ++ zeroes 118))
              (delivers (list_byte_of_string "PO")) []))));
      [reflexivity|reflexivity|simpl; lia].
Defined.




(** C6.  [recv_str] throws exactly when the read returns zero (the peer
    closed) or less (the read was rejected), and what it throws is the error
    of [sys_error("recv")].  For the Initiator: in every run of [process_a],
    a read that returns zero or less is the error the role stops with; the
    role is then neither blocked nor done. *)
Theorem recv_str_throws_iff :
  (∀ sock stack r env,
     ((∃ w, outcome_of (recv_str sock) (stack :: r :: env) = Raised w)
      ↔ (ret r = 0 ∨ ret r < 0))
     ∧ (ret r ≤ 0 ->
        outcome_of (recv_str sock) (stack :: r :: env) =
          Raised ("recv" +:+ ": " +:+ text r)))
  ∧ (∀ conn env t o rest x,
       run (process_a conn) env = (t, o, rest) ->
       x ∈ t -> is_recv x = true -> ret x.2 ≤ 0 ->
       o = Raised (what_of "recv" x)).
Proof.
  split.
  - intros sock stack r env. unfold outcome_of. rewrite run_recv_str. simpl.
    destruct (Z.leb_spec (ret r) 0) as [Hle|Hgt].
    + split; [|done]. split; [lia|]. by eexists.
    + split; [|lia]. split; [|lia]. intros [w Hw]. by destruct (c_str _).
  - intros conn env t o rest x Hrun Hx Hrecv Hret.
    apply process_a_run in Hrun.
    pose proof (cf_explains _ _ _ _ _ _ Hrun) as Hex.
    rewrite Forall_forall in Hex. apply (Hex x Hx).
    unfold failure. destruct x as [[] r]; try done. simpl in *.
    by destruct (Z.leb_spec (ret r) 0); [|lia].
Qed.

Lemma recv_str_throws_iff_witness :
  outcome_of (process_a (MkSocket 4)) a_peer_gone = Raised "recv: Success".
Proof.
  apply (proj2 recv_str_throws_iff (MkSocket 4) a_peer_gone
           (trace_of (process_a (MkSocket 4)) a_peer_gone) _
           (run (process_a (MkSocket 4)) a_peer_gone).2
           (EvRecv 4 128, fails 0 "Success")).
  - reflexivity.
  - apply list_elem_of_lookup. exists 23%nat. reflexivity.
  - reflexivity.
  - simpl. lia.
Defined.

(** C10.  [send_str] makes one write, whatever the script, and takes every
    result that is not negative for success, also one that is less than the
    number of bytes it asked to write: it then returns, with no further
    write and no error.  Only a negative result is an error. *)
Theorem send_str_accepts_short_write sock s :
  (∀ env, (length (positions is_send (trace_of (send_str sock s) env)) ≤ 1)%nat)
  ∧ (∀ r env,
       0 ≤ ret r ->
       run (send_str sock s) (r :: env) =
         ([(EvSend (fd_ sock) (take (sv_size s + 1) (sv_data s)), r)], Done tt, env))
  ∧ (∀ r env,
       ret r < 0 ->
       outcome_of (send_str sock s) (r :: env) = Raised ("send" +:+ ": " +:+ text r)).
Proof.
  split; [|split].
  - intros [|r env]; unfold trace_of, send_str, call; simpl; [lia|].
    destruct (ret r <? 0); simpl; lia.
  - intros r env Hr. unfold send_str, call. simpl.
    by destruct (Z.ltb_spec (ret r) 0); [lia|].
  - intros r env Hr. unfold outcome_of, send_str, call. simpl.
    by destruct (Z.ltb_spec (ret r) 0); [|lia].
Qed.

Lemma send_str_accepts_short_write_witness :
  run (send_str (MkSocket 4) (literal "PING")) [returns 2] =
    ([(EvSend 4 (msg0 "PING"), returns 2)], Done tt, [])
  ∧ outcome_of (send_str (MkSocket 4) (literal "PING")) [fails (-1) "Broken pipe"] =
      Raised "send: Broken pipe".
Proof.
  destruct (send_str_accepts_short_write (MkSocket 4) (literal "PING"))
    as (_ & Hok & Hfail).
  split.
  - apply (Hok (returns 2) []). simpl; lia.
  - apply (Hfail (fails (-1) "Broken pipe") []). simpl; lia.
Defined.

(** ** The dial of the Responder *)

Lemma loop_call_not_connect fd token x : loop_call fd token x -> is_connect x = false.
Proof. unfold loop_call, is_connect. by destruct x as [[] r]. Qed.

Lemma closes_not_connect s : Forall (fun x => is_connect x = false) (closes s).
Proof. unfold closes. destruct (0 <=? fd_ s); by repeat constructor. Qed.

Lemma unwinds_not_connect {A} (o : outcome A) s :
  Forall (fun x => is_connect x = false) (unwinds o s).
Proof. destruct o; simpl; by try apply closes_not_connect. Qed.

(** C8.  In every run of [process_b] there is at most one [connect].  It is
    the fourth call, after [socket], [inet_pton] and the one [sleep(1)], with
    nothing else before it; when the script answers the first three calls
    with success it is made, once.  When it fails, the role stops with the
    error of [sys_error("connect")], and all it still does is close its
    socket: there is no second dial. *)
Theorem responder_dials_once env t o rest :
  run process_b env = (t, o, rest) ->
  (length (positions is_connect t) ≤ 1)%nat
  ∧ (∀ r0 r1 r2 env',
       env = r0 :: r1 :: r2 :: env' -> 0 ≤ ret r0 -> 0 < ret r1 ->
       positions is_connect t = [3%nat])
  ∧ (∀ i x,
       t !! i = Some x -> is_connect x = true ->
       i = 3%nat
       ∧ ∃ r0 r1,
           take 3 t = [(EvSocket, r0); (EvInetPton "127.0.0.1", r1);
                       (EvSleep 1, no_answer)]
           ∧ x.1 = EvConnect (ret r0) "127.0.0.1" PORT
           ∧ (ret x.2 < 0 ->
              o = Raised (what_of "connect" x)
              ∧ drop 4 t = [(EvClose (ret r0), no_answer)])).
Proof.
  intros Hrun. apply process_b_cases in Hrun. unfold process_b_run_cases in Hrun.
  destruct env as [|r0 env].
  { destruct Hrun as [-> ->]. split; [simpl; lia|]. split; [done|]. by intros [] x. }
  destruct (Z.ltb_spec (ret r0) 0) as [H0|H0].
  { destruct Hrun as [-> ->]. split; [simpl; lia|]. split.
    - intros ???? ?; simplify_eq/=; lia.
    - by intros [|[]] x [= <-]. }
  assert (closes (MkSocket (ret r0)) = [(EvClose (ret r0), no_answer)]) as Hcl.
  { unfold closes; simpl. by destruct (Z.leb_spec 0 (ret r0)); [|lia]. }
  destruct env as [|r1 env].
  { destruct Hrun as [-> ->]. split; [simpl; lia|]. split; [done|].
    by intros [|[]] x [= <-]. }
  destruct (Z.leb_spec (ret r1) 0) as [H1|H1].
  { destruct Hrun as [-> ->]. rewrite Hcl. split; [simpl; lia|]. split.
    - intros ???? ?; simplify_eq/=; lia.
    - by intros [|[|[|[]]]] x [= <-]. }
  destruct env as [|r2 env].
  { destruct Hrun as [-> ->]. split; [simpl; lia|]. split; [done|].
    by intros [|[|[|[]]]] x [= <-]. }
  destruct (Z.ltb_spec (ret r2) 0) as [H2|H2].
  { destruct Hrun as [-> ->]. rewrite Hcl. split; [simpl; lia|]. split; [done|].
    intros [|[|[|[|[|[]]]]]] x [= <-]; try done. intros _.
    split; [done|]. by exists r0, r1. }
  destruct Hrun as (tl & Hl & ->). apply b_loop_run in Hl.
  assert (positions is_connect (tl ++ unwinds o (MkSocket (ret r0))) = []) as Htail.
  { apply positions_none, Forall_app. split; [|apply unwinds_not_connect].
    eapply Forall_impl; [apply (cf_calls _ _ _ _ _ _ Hl)|].
    apply loop_call_not_connect. }
  assert (positions is_connect
            ([(EvSocket, r0); (EvInetPton "127.0.0.1", r1); (EvSleep 1, no_answer);
              (EvConnect (ret r0) "127.0.0.1" PORT, r2)]
             ++ tl ++ unwinds o (MkSocket (ret r0))) = [3%nat]) as Hpos.
  { rewrite positions_app, Htail. done. }
  split; [by rewrite Hpos|]. split; [done|].
  intros i x Hi Hx.
  destruct (decide (i = 3%nat)) as [->|Hne].
  - injection Hi as <-. split; [done|]. exists r0, r1. split; [done|]. split; [done|].
    simpl. lia.
  - exfalso. destruct i as [|[|[|[|i]]]]; try by injection Hi as <-.
    simpl in Hi. apply list_elem_of_lookup_2 in Hi.
    assert (Forall (fun x => is_connect x = false)
              (tl ++ unwinds o (MkSocket (ret r0)))) as Hnone.
    { apply Forall_app. split; [|apply unwinds_not_connect].
      eapply Forall_impl; [apply (cf_calls _ _ _ _ _ _ Hl)|].
      apply loop_call_not_connect. }
    rewrite Forall_forall in Hnone. specialize (Hnone x Hi). congruence.
Qed.

Lemma responder_dials_once_witness :
  let env := [returns 5; returns 1; fails (-1) "Connection refused"] in
  positions is_connect (trace_of process_b env) = [3%nat]
  ∧ outcome_of process_b env = Raised "connect: Connection refused"
  ∧ drop 4 (trace_of process_b env) = [(EvClose 5, no_answer)].
Proof.
  intros env.
  destruct (responder_dials_once env (trace_of process_b env) (outcome_of process_b env)
              (run process_b env).2 eq_refl) as (_ & Hone & Hat).
  split; [by apply (Hone (returns 5) (returns 1) (fails (-1) "Connection refused") [])|].
  destruct (Hat 3%nat (EvConnect 5 "127.0.0.1" PORT, fails (-1) "Connection refused")
              eq_refl eq_refl) as (_ & r0 & r1 & Htake & _ & Hfail).
  injection Htake as <- _. apply Hfail. simpl. lia.
Defined.

(** ** The orchestrator, under every script *)

Lemma TcpServer_ctor_run env t o rest :
  run TcpServer_ctor env = (t, o, rest) -> set_up t o.
Proof.
  unfold TcpServer_ctor, Socket_of_fd, Socket_move_assign, Socket_dtor, Socket_default.
  unfold_calls. intros H. crunch; tests; split.
  all: try (by repeat constructor).
  all: try (entries; fail).
  all: try (try done; intros ? _; some_failed; fail).
  all: try (try done; intros ? _; entries; fail).
  all: by eauto.
Qed.










Section roles.
Context (n : nat) (a b : kind) (P : entry -> Prop).
Hypothesis P_not_waitpid : ∀ x, P x -> is_waitpid x = false.


End roles.








Lemma and_then_stopped {A B} t (o : outcome A) rest
    (f : A -> list response -> trace * outcome B * list response) :
  (∀ a, o ≠ Done a) -> and_then (t, o, rest) f = (t, stopped o, rest).
Proof. intros Ho. destruct o; try done. by destruct (Ho a). Qed.



(** ** The exit status *)


Lemma run_main env :
  run main env =
    let '(t, o, rest) := run main_try env in
    match o with
    | Raised w =>
        (t ++ [(EvPrint Stderr ("Fatal error: " +:+ w +:+ LF), no_answer)], Done 1, rest)
    | _ => (t, o, rest)
    end.
Proof.
  unfold main. rewrite run_try_catch.
  destruct (run main_try env) as [[t o] rest]. by destruct o.
Qed.

(** The runs of the [try] block, by cases. *)
Ltac shape :=
  cbn [app unwinds closes fd_ stopped];
  rewrite ?app_nil_r, <-?app_assoc; cbn [app]; rewrite ?app_nil_r;
  reflexivity.

Lemma main_try_shape env t o rest :
  run main_try env = (t, o, rest) -> main_try_cases env t o.
Proof.
  unfold main_try, main_try_cases. rewrite run_mbind, run_print. cbn [and_then].
  rewrite run_mbind.
  destruct (run TcpServer_ctor env) as [[ts os] env0] eqn:Hs.
  intros H. exists ts, os, env0. split; [done|]. revert H.
  destruct os as [srv|w|c| |];
    try (rewrite and_then_stopped by done; by intros [= <- <- _]).
  cbn [and_then]. rewrite run_scope_socket.
  set (lfd := listen_fd_ srv).
  rewrite run_call_bind by done.
  destruct env0 as [|r4 env1]; cbn [app unwinds].
  { intros [= <- <- _]. by rewrite app_nil_r. }
  cbv zeta. rewrite run_mbind.
  destruct (ret r4 <? 0) eqn:Hfork.
  { rewrite run_sys_error. cbn [and_then app unwinds]. by intros [= <- <- _]. }
  cbn [run and_then app]. rewrite run_mbind.
  destruct (ret r4 =? 0) eqn:Hchild.
  - rewrite run_mbind. unfold child_cases.
    destruct (run process_b env1) as [[tb ob] restb] eqn:Hb.
    destruct ob as [[]|w|c| |]; cbn [and_then run app unwinds stopped];
      intros [= <- <- _]; eexists; (split; [shape|]);
      exists tb; eexists; eexists; (split; [done|]); split; shape.
  - cbn [run and_then app]. unfold accept_client, parent_cases.
    rewrite run_mbind, run_call_bind by done.
    destruct env1 as [|r5 env2]; cbn [and_then app unwinds].
    { intros [= <- <- _]. eexists. split; [shape|]. split; shape. }
    rewrite run_mbind. unfold Socket_of_fd.
    destruct (ret r5 <? 0) eqn:Haccept.
    { rewrite run_sys_error. cbn [and_then app unwinds]. intros [= <- <- _].
      eexists. split; [shape|]. split; shape. }
    cbn [run and_then app Socket_move]. rewrite run_scope_socket, run_mbind.
    destruct (run (process_a _) env2) as [[ta oa] resta] eqn:Ha.
    destruct oa as [[]|w|c| |]; cbn [and_then].
    1: rewrite run_call_bind by done; destruct resta as [|r6 resta];
       [|rewrite run_mbind, run_print; cbn [and_then run]].
    all: cbn [app unwinds closes fd_]; intros [= <- <- _];
      eexists; (split; [shape|]);
      exists ta; eexists; eexists; (split; [done|]); split; shape.
Qed.




(** ** Ownership of descriptors *)

Module StoreFacts.
Import Store.

Lemma closed_app fd t1 t2 : closed fd (t1 ++ t2) = (closed fd t1 + closed fd t2)%nat.
Proof. unfold closed. by rewrite positions_app, length_app, length_fmap. Qed.

Lemma acquired_app fd l1 l2 :
  acquired fd (l1 ++ l2) = (acquired fd l1 + acquired fd l2)%nat.
Proof. unfold acquired. by rewrite positions_app, length_app, length_fmap. Qed.

Lemma closed_closes fd s :
  closed fd (closes s) = if decide (0 ≤ fd_ s ∧ fd_ s = fd) then 1%nat else 0%nat.
Proof.
  unfold closed, closes, is_close.
  destruct (Z.leb_spec 0 (fd_ s)); simpl.
  - destruct (Z.eqb_spec (fd_ s) fd); case_decide; simpl; try done; lia.
  - case_decide; [lia|done].
Qed.

Lemma step_effect σ o env t σ' rest :
  run (step σ o) env = (t, Done σ', rest) -> effect σ o t σ' ∧ rest = env.
Proof.
  destruct o as [a|a fd errno|a src|dst src|a]; simpl.
  - destruct (σ !! a) eqn:Ha; [done|]. intros [= <- <- <-]. split; [by constructor|done].
  - destruct (σ !! a) eqn:Ha; [done|]. unfold Socket_of_fd.
    destruct (Z.ltb_spec fd 0); [done|]. simpl. intros [= <- <- <-].
    split; [by constructor|done].
  - destruct (σ !! a) eqn:Ha; [done|]. destruct (σ !! src) as [other|] eqn:Hs; [|done].
    simpl. intros [= <- <- <-]. split; [by constructor|done].
  - destruct (σ !! dst) as [this|] eqn:Hd; [|done].
    destruct (σ !! src) as [other|] eqn:Hs; [|done].
    case_decide as Heq.
    + subst. simpl. intros [= <- <- <-]. split; [by econstructor|done].
    + unfold Socket_move_assign. rewrite !run_mbind.
      change (if 0 <=? fd_ this then close (fd_ this) else Ret tt)
        with (Socket_dtor this).
      rewrite run_Socket_dtor. simpl. rewrite !app_nil_r. intros [= <- <- <-].
      split; [by constructor|done].
  - destruct (σ !! a) as [s|] eqn:Ha; [|done].
    rewrite run_mbind, run_Socket_dtor. simpl. rewrite app_nil_r.
    intros [= <- <- <-]. split; [by constructor|done].
Qed.

Lemma step_throws σ o env t w rest :
  run (step σ o) env = (t, Raised w, rest) -> t = [].
Proof.
  destruct o as [a|a fd errno|a src|dst src|a]; simpl.
  - by destruct (σ !! a).
  - destruct (σ !! a); [done|]. unfold Socket_of_fd.
    destruct (fd <? 0); simpl; by intros [= <- _ _].
  - destruct (σ !! a); [done|]. by destruct (σ !! src).
  - destruct (σ !! dst) as [this|]; [|done]. destruct (σ !! src) as [other|]; [|done].
    case_decide; [done|]. unfold Socket_move_assign. rewrite !run_mbind.
    change (if 0 <=? fd_ this then close (fd_ this) else Ret tt)
      with (Socket_dtor this).
    by rewrite run_Socket_dtor.
  - destruct (σ !! a) as [s|]; [|done]. by rewrite run_mbind, run_Socket_dtor.
Qed.

Lemma effect_exclusive σ o t σ' :
  effect σ o t σ' -> fresh σ o -> exclusive σ -> exclusive σ'.
Proof.
  intros Heff Hfresh Hex.
  destruct Heff as [a Ha|a fd errno Ha Hfd|a src other Ha Hs|a this Ha
                   |dst src this other Hne Hd Hs|a s Ha];
    intros x y sx sy Hx Hy Hpos Heq; try by eapply Hex.
  - apply lookup_insert_Some in Hx as [[<- <-]|[Hxa Hx]]; [simpl in *; lia|].
    apply lookup_insert_Some in Hy as [[<- <-]|[Hya Hy]]; [simpl in *; lia|].
    by eapply Hex.
  - simpl in Hfresh.
    apply lookup_insert_Some in Hx as [[<- <-]|[Hxa Hx]];
      apply lookup_insert_Some in Hy as [[<- <-]|[Hya Hy]]; try done.
    + destruct Hfresh. by exists y, sy.
    + destruct Hfresh. by exists x, sx.
    + by eapply Hex.
  - apply lookup_insert_Some in Hx as [[<- <-]|[Hxa Hx]];
      apply lookup_insert_Some in Hy as [[<- <-]|[Hya Hy]]; try done.
    + apply lookup_insert_Some in Hy as [[<- <-]|[Hys Hy]]; [simpl in *; lia|].
      simpl in *. destruct Hys. by eapply (Hex src y other sy).
    + apply lookup_insert_Some in Hx as [[<- <-]|[Hxs Hx]]; [simpl in *; lia|].
      simpl in *. destruct Hxs. symmetry. eapply (Hex x src sx other); eauto.
    + apply lookup_insert_Some in Hx as [[<- <-]|[Hxs Hx]]; [simpl in *; lia|].
      apply lookup_insert_Some in Hy as [[<- <-]|[Hys Hy]]; [simpl in *; lia|].
      by eapply Hex.
  - apply lookup_insert_Some in Hx as [[<- <-]|[Hxa Hx]];
      apply lookup_insert_Some in Hy as [[<- <-]|[Hya Hy]]; try done.
    + apply lookup_insert_Some in Hy as [[<- <-]|[Hys Hy]]; [simpl in *; lia|].
      simpl in *. destruct Hys. by eapply (Hex src y other sy).
    + apply lookup_insert_Some in Hx as [[<- <-]|[Hxs Hx]]; [simpl in *; lia|].
      simpl in *. destruct Hxs. symmetry. eapply (Hex x src sx other); eauto.
    + apply lookup_insert_Some in Hx as [[<- <-]|[Hxs Hx]]; [simpl in *; lia|].
      apply lookup_insert_Some in Hy as [[<- <-]|[Hys Hy]]; [simpl in *; lia|].
      by eapply Hex.
  - apply lookup_delete_Some in Hx as [_ Hx]. apply lookup_delete_Some in Hy as [_ Hy].
    by eapply Hex.
Qed.

Lemma reach_exclusive σ acq t : reach σ acq t -> exclusive σ.
Proof.
  induction 1 as [|σ acq t o env t' σ' rest _ IH Hfresh Hrun| ]; [|..|done].
  - intros a b s s' Ha. by rewrite lookup_empty in Ha.
  - apply step_effect in Hrun as [Heff _]. by eapply effect_exclusive.
Qed.

Lemma acquired_one fd fd' :
  acquired fd [fd'] = if decide (fd = fd') then 1%nat else 0%nat.
Proof.
  unfold acquired. simpl. destruct (Z.eqb_spec fd fd'); by case_decide.
Qed.

(** How one operation changes what is owned: it closes a descriptor at
    most once, and only one that was owned and is no longer; it acquires
    only a descriptor that was not owned and now is; and it leaves the
    ownership of every other descriptor as it was. *)
Lemma effect_owned σ o t σ' fd :
  effect σ o t σ' -> fresh σ o -> exclusive σ -> 0 ≤ fd ->
  (closed fd t = 0%nat ∧ acquired fd (acquires o) = 0%nat
     ∧ (owned σ' fd ↔ owned σ fd))
  ∨ (closed fd t = 1%nat ∧ acquired fd (acquires o) = 0%nat
     ∧ owned σ fd ∧ ¬ owned σ' fd)
  ∨ (closed fd t = 0%nat ∧ acquired fd (acquires o) = 1%nat
     ∧ ¬ owned σ fd ∧ owned σ' fd).
Proof.
  intros Heff Hfresh Hex Hfd.
  destruct Heff as [a Ha|a fd' errno Ha Hfd'|a src other Ha Hs|a this Ha
                   |dst src this other Hne Hd Hs|a s Ha]; simpl acquires.
  - left. split; [done|]. split; [done|]. split.
    + intros (x & sx & Hx & <-).
      apply lookup_insert_Some in Hx as [[<- <-]|[Hxa Hx]]; [simpl in *; lia|].
      by exists x, sx.
    + intros (x & sx & Hx & <-). exists x, sx. split; [|done].
      rewrite lookup_insert_ne; [done|]. intros ->. congruence.
  - simpl in Hfresh. rewrite acquired_one. case_decide as Heq.
    + subst fd'. right; right. split; [done|]. split; [done|]. split; [done|].
      exists a, (MkSocket fd). by rewrite lookup_insert_eq.
    + left. split; [done|]. split; [done|]. split.
      * intros (x & sx & Hx & <-).
        apply lookup_insert_Some in Hx as [[<- <-]|[Hxa Hx]]; [done|].
        by exists x, sx.
      * intros (x & sx & Hx & <-). exists x, sx. split; [|done].
        rewrite lookup_insert_ne; [done|]. intros ->. congruence.
  - left. split; [done|]. split; [done|]. split.
    + intros (x & sx & Hx & <-).
      apply lookup_insert_Some in Hx as [[<- <-]|[Hxa Hx]]; [by exists src, other|].
      apply lookup_insert_Some in Hx as [[<- <-]|[Hxs Hx]]; [simpl in *; lia|].
      by exists x, sx.
    + intros (x & sx & Hx & <-). destruct (decide (x = src)) as [->|Hxs].
      * exists a, (MkSocket (fd_ other)). rewrite lookup_insert_eq.
        split; [done|]. simpl. congruence.
      * exists x, sx. split; [|done].
        rewrite !lookup_insert_ne; [done|done|]. intros ->. congruence.
  - by left.
  - rewrite closed_closes. case_decide as Hthis.
    + destruct Hthis as [Hpos <-]. right; left.
      split; [done|]. split; [done|]. split; [by exists dst, this|].
      intros (x & sx & Hx & Heq).
      apply lookup_insert_Some in Hx as [[<- <-]|[Hxd Hx]].
      { simpl in Heq. apply Hne. symmetry. eapply (Hex src dst other this); eauto; lia. }
      apply lookup_insert_Some in Hx as [[<- <-]|[Hxs Hx]]; [simpl in *; lia|].
      apply Hxd. symmetry. eapply (Hex x dst sx this); eauto; lia.
    + left. split; [done|]. split; [done|]. split.
      * intros (x & sx & Hx & <-).
        apply lookup_insert_Some in Hx as [[<- <-]|[Hxd Hx]]; [by exists src, other|].
        apply lookup_insert_Some in Hx as [[<- <-]|[Hxs Hx]]; [simpl in *; lia|].
        by exists x, sx.
      * intros (x & sx & Hx & <-). destruct (decide (x = src)) as [->|Hxs].
        { exists dst, (MkSocket (fd_ other)). rewrite lookup_insert_eq.
          split; [done|]. simpl. congruence. }
        exists x, sx. split; [|done].
        rewrite !lookup_insert_ne; [done|done|]. intros ->.
        apply Hthis. split; [|congruence]. replace this with sx by congruence. done.
  - rewrite closed_closes. case_decide as Hs.
    + destruct Hs as [Hpos <-]. right; left.
      split; [done|]. split; [done|]. split; [by exists a, s|].
      intros (x & sx & Hx & Heq). apply lookup_delete_Some in Hx as [Hxa Hx].
      apply Hxa. eapply (Hex a x s sx); eauto.
    + left. split; [done|]. split; [done|]. split.
      * intros (x & sx & Hx & <-). apply lookup_delete_Some in Hx as [Hxa Hx].
        by exists x, sx.
      * intros (x & sx & Hx & <-). exists x, sx. split; [|done].
        apply lookup_delete_Some. split; [|done]. intros ->.
        apply Hs. split; [|congruence]. replace s with sx by congruence. done.
Qed.

Lemma reach_balanced σ acq t : reach σ acq t -> balanced σ acq t.
Proof.
  induction 1 as [|σ acq t o env t' σ' rest Hreach IH Hfresh Hrun
                  |σ acq t o env t' w rest Hreach IH Hrun].
  - intros fd Hfd. split; [|done]. intros (a & s & Ha & _).
    by rewrite lookup_empty in Ha.
  - apply step_effect in Hrun as [Heff _].
    intros fd Hfd. destruct (IH fd Hfd) as [IH1 IH2].
    rewrite acquired_app, closed_app.
    destruct (effect_owned σ o t' σ' fd Heff Hfresh (reach_exclusive _ _ _ Hreach) Hfd)
      as [(-> & -> & Hiff)|[(-> & -> & Hown & Hnot)|(-> & -> & Hnot & Hown)]].
    + rewrite !Nat.add_0_r. rewrite Hiff. done.
    + split; [done|]. intros _. rewrite IH1 by done. lia.
    + split; [|done]. intros _. rewrite IH2 by done. lia.
  - apply step_throws in Hrun as ->. by rewrite app_nil_r.
Qed.
End StoreFacts.

Module Ownership.
Import Store StoreFacts.

Lemma reach_valid σ acq t :
  reach σ acq t -> ∀ a s, σ !! a = Some s -> fd_ s = -1 ∨ 0 ≤ fd_ s.
Proof.
  induction 1 as [|σ acq t o env t' σ' rest Hreach IH Hfresh Hrun| ]; [|..|done].
  - intros a s Ha. by rewrite lookup_empty in Ha.
  - apply step_effect in Hrun as [Heff _].
    destruct Heff as [a Ha|a fd' errno Ha Hfd'|a src other Ha Hs|a this Ha
                     |dst src this other Hne Hd Hs|a s Ha]; intros x sx Hx.
    + apply lookup_insert_Some in Hx as [[<- <-]|[_ Hx]]; [by left|by eapply IH].
    + apply lookup_insert_Some in Hx as [[<- <-]|[_ Hx]]; [by right|by eapply IH].
    + apply lookup_insert_Some in Hx as [[<- <-]|[_ Hx]]; [simpl; by apply (IH src other)|].
      apply lookup_insert_Some in Hx as [[<- <-]|[_ Hx]]; [by left|by eapply IH].
    + by eapply IH.
    + apply lookup_insert_Some in Hx as [[<- <-]|[_ Hx]]; [simpl; by apply (IH src other)|].
      apply lookup_insert_Some in Hx as [[<- <-]|[_ Hx]]; [by left|by eapply IH].
    + apply lookup_delete_Some in Hx as [_ Hx]. by eapply IH.
Qed.

(** C7.  Along every sequence of operations on sockets that starts with no
    object and gives constructors only descriptors that no live object
    holds: at most one live object holds a descriptor; every live object
    holds -1 or a descriptor; and every descriptor was closed exactly as
    often as it was acquired, less the one acquisition a live object still
    holds.  Moving from a socket, by construction or by assignment to
    another object, leaves -1 in the source and its descriptor in the
    target (assignment first closes what the target held).  Destroying a
    socket makes one [close] of its descriptor when that is not negative and
    no call at all when it is -1. *)
Theorem socket_ownership :
  (∀ σ acq t, reach σ acq t ->
     exclusive σ ∧ balanced σ acq t
     ∧ ∀ a s, σ !! a = Some s -> fd_ s = -1 ∨ 0 ≤ fd_ s)
  ∧ (∀ σ a src other env,
       σ !! a = None -> σ !! src = Some other ->
       run (step σ (MoveCtor a src)) env =
         ([], Done (<[a := MkSocket (fd_ other)]> (<[src := MkSocket (-1)]> σ)), env))
  ∧ (∀ σ dst src this other env,
       dst ≠ src -> σ !! dst = Some this -> σ !! src = Some other ->
       run (step σ (MoveAssign dst src)) env =
         (closes this,
          Done (<[dst := MkSocket (fd_ other)]> (<[src := MkSocket (-1)]> σ)), env))
  ∧ (∀ σ a s env,
       σ !! a = Some s ->
       run (step σ (Destroy a)) env =
         (if 0 <=? fd_ s then [(EvClose (fd_ s), no_answer)] else [],
          Done (delete a σ), env)).
Proof.
  split; [|split; [|split]].
  - intros σ acq t Hreach. split; [by eapply reach_exclusive|].
    split; [by apply reach_balanced|by eapply reach_valid].
  - intros σ a src other env Ha Hs. simpl. by rewrite Ha, Hs.
  - intros σ dst src this other env Hne Hd Hs. simpl. rewrite Hd, Hs.
    case_decide; [done|]. unfold Socket_move_assign. rewrite !run_mbind.
    change (if 0 <=? fd_ this then close (fd_ this) else Ret tt) with (Socket_dtor this).
    rewrite run_Socket_dtor. simpl. by rewrite !app_nil_r.
  - intros σ a s env Ha. simpl. rewrite Ha, run_mbind, run_Socket_dtor. simpl.
    by rewrite app_nil_r.
Qed.

(** The constructor of [TcpServer] followed by its destructor, as operations
    on objects: the member at address 0, the temporary at address 1, and 3
    the descriptor that [socket] returned. *)
Lemma server_lifetime_reach :
  reach ∅ [3] [(EvClose 3, no_answer)].
Proof.
  pose proof reach_init as H0.
  pose proof (reach_step _ _ _ (Default 0) [] _ _ _ H0 I eq_refl) as H1.
  assert (fresh (<[0%nat := Socket_default]> ∅) (FromFd 1 3 EmptyString)) as Hfresh.
  { intros (a & s & Ha & Hfd).
    apply lookup_insert_Some in Ha as [[<- <-]|[_ Ha]]; [done|].
    by rewrite lookup_empty in Ha. }
  pose proof (reach_step _ _ _ (FromFd 1 3 EmptyString) [] _ _ _ H1 Hfresh eq_refl) as H2.
  pose proof (reach_step _ _ _ (MoveAssign 0 1) [] _ _ _ H2 I eq_refl) as H3.
  pose proof (reach_step _ _ _ (Destroy 1) [] _ _ _ H3 I eq_refl) as H4.
  pose proof (reach_step _ _ _ (Destroy 0) [] _ _ _ H4 I eq_refl) as H5.
  exact H5.
Defined.

Lemma socket_ownership_witness :
  acquired 3 [3] = closed 3 [(EvClose 3, no_answer)]
  ∧ (∃ σ', run (step {[ 0%nat := MkSocket (-1); 1%nat := MkSocket 3 ]}
                  (MoveAssign 0 1)) [] = ([], Done σ', [])
           ∧ σ' !! 0%nat = Some (MkSocket 3) ∧ σ' !! 1%nat = Some (MkSocket (-1)))
  ∧ (∃ σ', run (step {[ 1%nat := MkSocket (-1) ]} (Destroy 1)) [] = ([], Done σ', [])
           ∧ σ' !! 1%nat = None).
Proof.
  destruct socket_ownership as (Hreach & _ & Hassign & Hdestroy).
  split; [|split].
  - destruct (Hreach _ _ _ server_lifetime_reach) as (_ & Hbal & _).
    apply (Hbal 3); [lia|]. intros (a & s & Ha & _). by rewrite lookup_empty in Ha.
  - eexists. split; [by apply (Hassign _ 0%nat 1%nat (MkSocket (-1)) (MkSocket 3) [])|].
    by simplify_map_eq.
  - eexists. split; [by apply (Hdestroy _ 1%nat (MkSocket (-1)) [])|].
    by simplify_map_eq.
Defined.
End Ownership.

(** * Further properties *)

(** ** The runs of the constructor and of [main], by cases *)

Lemma TcpServer_ctor_shape env t o rest :
  run TcpServer_ctor env = (t, o, rest) -> TcpServer_ctor_cases env t o rest.
Proof.
  unfold TcpServer_ctor, TcpServer_ctor_cases, Socket_of_fd, Socket_move_assign,
    Socket_dtor, Socket_default, closes.
  unfold_calls. intros H. crunch; done.
Qed.

Lemma process_a_shape conn env t o rest :
  run (process_a conn) env = (t, o, rest) ->
  ∃ tl, Forall (loop_call (fd_ conn) "PING") tl ∧ t = tl ++ unwinds o conn.
Proof.
  unfold process_a. rewrite run_scope_socket.
  destruct (run _ env) as [[tl ol] restl] eqn:Hl. intros [= <- <- _].
  apply (role_loop_run _ _ Snd Rcv (fd_ conn) "PING") in Hl; [|apply round_a_run].
  exists tl. split; [apply (cf_calls _ _ _ _ _ _ Hl)|done].
Qed.

(** ** Descriptors *)

Lemma track_app held t1 t2 :
  track held (t1 ++ t2) = held' ← track held t1; track held' t2.
Proof.
  revert held; induction t1 as [|x t1 IH]; intros held; simpl; [done|].
  destruct (hold held x); simpl; auto.
Qed.

Lemma hold_loop_call held fd token x :
  existsb (Z.eqb fd) held = true -> loop_call fd token x -> hold held x = Some held.
Proof.
  destruct x as [[] r]; unfold loop_call, hold; simpl; try done.
  - intros H [-> _]. by rewrite H.
  - intros H [-> _]. by rewrite H.
Qed.

Lemma track_loop held fd token t :
  existsb (Z.eqb fd) held = true -> Forall (loop_call fd token) t ->
  track held t = Some held.
Proof.
  intros Hfd. induction 1 as [|x t Hx _ IH]; simpl; [done|].
  by rewrite (hold_loop_call _ _ _ _ Hfd Hx).
Qed.

Lemma track_closes fd held :
  0 ≤ fd -> track (fd :: held) (closes (MkSocket fd)) = Some held.
Proof.
  intros Hfd. unfold closes, hold; simpl.
  destruct (Z.leb_spec 0 fd); [|lia]. simpl. unfold hold; simpl.
  by rewrite Z.eqb_refl.
Qed.

Lemma track_unwinds {A} (o : outcome A) fd held :
  0 ≤ fd ->
  track (fd :: held) (unwinds o (MkSocket fd)) =
    Some (if unwound o then held else fd :: held).
Proof. intros Hfd. destruct o; simpl; by rewrite ?track_closes. Qed.

Lemma closed_loop fd fd' token t :
  Forall (loop_call fd' token) t -> Store.closed fd t = 0%nat.
Proof.
  intros H. unfold Store.closed. rewrite positions_none; [done|].
  eapply Forall_impl; [done|]. by intros [[] r].
Qed.

Lemma closed_closes_self fd :
  0 ≤ fd -> Store.closed fd (closes (MkSocket fd)) = 1%nat.
Proof.
  intros Hfd. unfold closes, Store.closed, Store.is_close; simpl.
  destruct (Z.leb_spec 0 fd); [|lia]. simpl. by rewrite Z.eqb_refl.
Qed.

Lemma last_closes fd t :
  0 ≤ fd -> last (t ++ closes (MkSocket fd)) = Some (EvClose fd, no_answer).
Proof.
  intros Hfd. unfold closes; simpl. destruct (Z.leb_spec 0 fd); [|lia].
  by rewrite last_snoc.
Qed.

Lemma hold_socket held r :
  hold held (EvSocket, r) = Some (if ret r <? 0 then held else ret r :: held).
Proof. unfold hold, opens; simpl. by destruct (ret r <? 0). Qed.

Lemma hold_use fd held x :
  uses x = [fd] -> opens x = [] -> (∀ fd', x.1 ≠ EvClose fd') ->
  hold (fd :: held) x = Some (fd :: held).
Proof.
  intros Hu Ho He. unfold hold. rewrite Hu, Ho. simpl. rewrite Z.eqb_refl. simpl.
  destruct x as [[] r]; try done. by destruct (He fd0).
Qed.

Lemma hold_free held x :
  uses x = [] -> opens x = [] -> hold held x = Some held.
Proof.
  intros Hu Ho. unfold hold. rewrite Hu, Ho. simpl. by destruct x as [[] r].
Qed.

Ltac tracking :=
  repeat (cbn [track app mbind option_bind unwound];
          first [ rewrite hold_socket | rewrite hold_use by done
                | rewrite hold_free by done | rewrite track_closes by done ]);
  cbn [track app mbind option_bind unwound].

Lemma process_a_track conn held env t o rest :
  0 ≤ fd_ conn ->
  run (process_a conn) env = (t, o, rest) ->
  track (fd_ conn :: held) t = Some (if unwound o then held else fd_ conn :: held).
Proof.
  intros Hfd Hrun. destruct (process_a_shape _ _ _ _ _ Hrun) as (tl & Hl & ->).
  destruct conn as [fd]; simpl in *.
  rewrite track_app, (track_loop _ fd "PING") by (done || simpl; by rewrite Z.eqb_refl).
  simpl. by apply track_unwinds.
Qed.

Lemma process_b_track held0 env t o rest :
  run process_b env = (t, o, rest) ->
  ∃ held, track held0 t = Some (held ++ held0)
          ∧ (unwound o = true -> held = []) ∧ (length held ≤ 1)%nat.
Proof.
  intros Hrun. apply process_b_cases in Hrun. unfold process_b_run_cases in Hrun.
  destruct env as [|r0 env];
    [destruct Hrun as [-> ->]; exists []; repeat split; simpl; done || lia|].
  destruct (ret r0 <? 0) eqn:H0.
  { destruct Hrun as [-> ->]. exists []. tracking. rewrite H0.
    repeat split; simpl; done || lia. }
  apply Z.ltb_ge in H0 as H0'.
  destruct env as [|r1 env].
  { destruct Hrun as [-> ->]. exists [ret r0]. tracking. rewrite H0.
    repeat split; simpl; done || lia. }
  destruct (ret r1 <=? 0).
  { destruct Hrun as [-> ->]. exists []. tracking. rewrite H0. tracking.
    repeat split; simpl; done || lia. }
  destruct env as [|r2 env].
  { destruct Hrun as [-> ->]. exists [ret r0]. tracking. rewrite H0. tracking.
    repeat split; simpl; done || lia. }
  destruct (ret r2 <? 0).
  { destruct Hrun as [-> ->]. exists []. tracking. rewrite H0. tracking.
    repeat split; simpl; done || lia. }
  destruct Hrun as (tl & Hl & ->). apply b_loop_run in Hl.
  exists (if unwound o then [] else [ret r0]).
  tracking. rewrite H0. tracking.
  rewrite track_app, (track_loop _ (ret r0) "PONG");
    [|simpl; by rewrite Z.eqb_refl|apply (cf_calls _ _ _ _ _ _ Hl)].
  cbn [mbind option_bind]. rewrite track_unwinds by done.
  destruct o; repeat split; simpl; done || lia.
Qed.

Lemma TcpServer_ctor_track env t o rest :
  run TcpServer_ctor env = (t, o, rest) ->
  match o with
  | Done srv =>
      0 ≤ fd_ (listen_fd_ srv) ∧ track [] t = Some [fd_ (listen_fd_ srv)]
      ∧ ∃ r, last t = Some (EvListen (fd_ (listen_fd_ srv)) 1, r)
  | Raised _ => track [] t = Some []
  | Blocked => ∃ held, track [] t = Some held
  | _ => False
  end.
Proof.
  intros Hrun. apply TcpServer_ctor_shape in Hrun. unfold TcpServer_ctor_cases in Hrun.
  destruct env as [|r0 env]; [destruct Hrun as [-> ->]; by exists []|].
  destruct (ret r0 <? 0) eqn:H0.
  { destruct Hrun as [-> ->]. tracking. by rewrite H0. }
  apply Z.ltb_ge in H0 as H0'.
  destruct env as [|r1 env].
  { destruct Hrun as [-> ->]. eexists. tracking. by rewrite H0. }
  destruct (ret r1 <? 0).
  { destruct Hrun as [-> ->]. tracking. rewrite H0. by tracking. }
  destruct env as [|r2 env].
  { destruct Hrun as [-> ->]. eexists. tracking. rewrite H0. by tracking. }
  destruct (ret r2 <? 0).
  { destruct Hrun as [-> ->]. tracking. rewrite H0. by tracking. }
  destruct env as [|r3 env].
  { destruct Hrun as [-> ->]. eexists. tracking. rewrite H0. by tracking. }
  destruct (ret r3 <? 0).
  { destruct Hrun as [-> ->]. tracking. rewrite H0. by tracking. }
  destruct Hrun as (-> & -> & _). split; [done|]. split; [|by eexists].
  tracking. rewrite H0. by tracking.
Qed.

Lemma hold_accept fd held r :
  hold (fd :: held) (EvAccept fd, r)
  = Some (if ret r <? 0 then fd :: held else ret r :: fd :: held).
Proof.
  unfold hold, opens; simpl. rewrite Z.eqb_refl. simpl. by destruct (ret r <? 0).
Qed.

Lemma main_try_track env t o rest :
  run main_try env = (t, o, rest) ->
  ∃ held, track [] t = Some held
          ∧ (unwound o = true -> held = [])
          ∧ (∀ c, o = Exited c -> ∃ fd r, (EvListen fd 1, r) ∈ t ∧ held = [fd]).
Proof.
  intros Hrun. apply main_try_shape in Hrun.
  destruct Hrun as (ts & os & env0 & Hs & Hcase).
  apply TcpServer_ctor_track in Hs.
  destruct os as [srv|w|c| |]; try done.
  2: { destruct Hcase as [-> ->]. exists []. by tracking. }
  2: { destruct Hcase as [-> ->]. destruct Hs as [held Hs]. exists held. by tracking. }
  destruct Hs as (Hfd & Hs & r3 & Hlast). cbv zeta in Hcase.
  destruct srv as [[lfd]]; cbn [fd_ listen_fd_] in *.
  destruct env0 as [|r4 env1].
  { destruct Hcase as [-> ->]. exists [lfd]. by tracking. }
  destruct (ret r4 <? 0).
  { destruct Hcase as [-> ->]. exists []. tracking. rewrite track_app, Hs. by tracking. }
  destruct Hcase as (t' & -> & Hcase).
  assert (∀ held, track [lfd] t' = Some held ->
                  track [] (banner :: ts ++ (EvFork, r4) :: t') = Some held) as Htr.
  { intros held H. tracking. rewrite track_app, Hs. by tracking. }
  destruct (ret r4 =? 0).
  - destruct Hcase as (tb & ob & restb & Hb & Hcase).
    pose proof (cf_no_exit _ _ _ _ _ _ (process_b_run _ _ _ _ Hb)) as Hne.
    destruct (process_b_track [lfd] _ _ _ _ Hb) as (held & Hb' & Hu & _).
    destruct ob as [[]|w|c| |].
    + destruct Hcase as [-> ->]. rewrite (Hu eq_refl) in Hb'. exists [lfd].
      split; [by apply Htr|]. split; [done|]. intros c _. exists lfd, r3.
      split; [|done]. apply elem_of_cons; right. apply elem_of_app; left.
      by apply last_Some_elem_of.
    + destruct Hcase as [-> ->]. rewrite (Hu eq_refl) in Hb'. exists [].
      split; [|done]. apply Htr. rewrite track_app, Hb'. by tracking.
    + by destruct (Hne c).
    + destruct Hcase as [-> ->]. exists (held ++ [lfd]). split; [by apply Htr|done].
    + destruct Hcase as [-> ->]. exists (held ++ [lfd]). split; [by apply Htr|done].
  - unfold parent_cases in Hcase. cbn [fd_] in Hcase.
    destruct env1 as [|r5 env2].
    { destruct Hcase as [-> ->]. exists [lfd]. split; [by apply Htr|done]. }
    destruct (ret r5 <? 0) eqn:H5.
    { destruct Hcase as [-> ->]. exists []. split; [|done]. apply Htr.
      tracking. rewrite hold_accept, H5. by tracking. }
    apply Z.ltb_ge in H5 as H5'.
    destruct Hcase as (ta & oa & resta & Ha & Hcase).
    pose proof (cf_no_exit _ _ _ _ _ _ (process_a_run _ _ _ _ _ Ha)) as Hne.
    pose proof (process_a_track (MkSocket (ret r5)) [lfd] _ _ _ _ H5' Ha) as Ha'. cbn [fd_] in Ha'.
    assert (∀ t2 held, track (if unwound oa then [lfd] else [ret r5; lfd]) t2 = Some held ->
              track [lfd] ((EvAccept lfd, r5) :: ta ++ t2) = Some held) as Htr'.
    { intros t2 held H. tracking. rewrite hold_accept, H5. tracking.
      by rewrite track_app, Ha'. }
    destruct oa as [[]|w|c| |].
    + destruct resta as [|r6 resta]; destruct Hcase as [-> ->].
      * exists [lfd]. split; [|done]. apply Htr. rewrite <-(app_nil_r ta).
        by apply Htr'.
      * exists []. split; [|done]. apply Htr, Htr'. by tracking.
    + destruct Hcase as [-> ->]. exists []. split; [|done]. apply Htr, Htr'. by tracking.
    + by destruct (Hne c).
    + destruct Hcase as [-> ->]. exists [ret r5; lfd]. split; [|done].
      apply Htr. rewrite <-(app_nil_r ta). by apply Htr'.
    + destruct Hcase as [-> ->]. exists [ret r5; lfd]. split; [|done].
      apply Htr. rewrite <-(app_nil_r ta). by apply Htr'.
Qed.

(** ** The listening socket *)

(** X1.  When the constructor of [TcpServer] returns, it made exactly four
    calls, in this order: [socket], then [setsockopt], [bind] to [PORT] and
    [listen] with backlog 1 on the descriptor that [socket] returned; none
    of them failed, the descriptor was not closed, and it is the one the
    server holds. *)
Theorem TcpServer_ctor_listens env t srv rest :
  run TcpServer_ctor env = (t, Done srv, rest) ->
  ∃ r0 r1 r2 r3,
    env = r0 :: r1 :: r2 :: r3 :: rest
    ∧ t = [(EvSocket, r0); (EvSetsockopt (ret r0), r1);
           (EvBind (ret r0) 9889, r2); (EvListen (ret r0) 1, r3)]
    ∧ srv = MkTcpServer (MkSocket (ret r0))
    ∧ 0 ≤ ret r0 ∧ 0 ≤ ret r1 ∧ 0 ≤ ret r2 ∧ 0 ≤ ret r3.
Proof.
  intros Hrun. apply TcpServer_ctor_shape in Hrun. unfold TcpServer_ctor_cases in Hrun.
  destruct env as [|r0 env]; [by destruct Hrun|].
  destruct (Z.ltb_spec (ret r0) 0); [by destruct Hrun|].
  destruct env as [|r1 env]; [by destruct Hrun|].
  destruct (Z.ltb_spec (ret r1) 0); [by destruct Hrun|].
  destruct env as [|r2 env]; [by destruct Hrun|].
  destruct (Z.ltb_spec (ret r2) 0); [by destruct Hrun|].
  destruct env as [|r3 env]; [by destruct Hrun|].
  destruct (Z.ltb_spec (ret r3) 0); [by destruct Hrun|].
  destruct Hrun as (-> & [= ->] & ->). by exists r0, r1, r2, r3.
Qed.

Lemma TcpServer_ctor_listens_witness :
  ∃ r0 r1 r2 r3,
    setup_ok ++ [returns 7] = [r0; r1; r2; r3; returns 7]
    ∧ trace_of TcpServer_ctor (setup_ok ++ [returns 7]) =
        [(EvSocket, r0); (EvSetsockopt (ret r0), r1);
         (EvBind (ret r0) 9889, r2); (EvListen (ret r0) 1, r3)].
Proof.
  destruct (TcpServer_ctor_listens (setup_ok ++ [returns 7]) _ _ _ eq_refl)
    as (r0 & r1 & r2 & r3 & H1 & H2 & _).
  by exists r0, r1, r2, r3.
Defined.

(** X2.  When an exception leaves the constructor of [TcpServer], no
    descriptor is left open: either [socket] itself failed, or the last
    call closes the descriptor that [socket] returned, and it is closed
    once. *)
Theorem TcpServer_ctor_no_leak env t w rest :
  run TcpServer_ctor env = (t, Raised w, rest) ->
  track [] t = Some []
  ∧ ∀ r, (EvSocket, r) ∈ t -> 0 ≤ ret r ->
      last t = Some (EvClose (ret r), no_answer) ∧ Store.closed (ret r) t = 1%nat.
Proof.
  intros Hrun. split; [apply (TcpServer_ctor_track _ _ _ _ Hrun)|].
  apply TcpServer_ctor_shape in Hrun. unfold TcpServer_ctor_cases in Hrun.
  assert (∀ fd, 0 ≤ fd -> closes (MkSocket fd) = [(EvClose fd, no_answer)]) as Hc.
  { intros fd Hfd. unfold closes; simpl. by destruct (Z.leb_spec 0 fd); [|lia]. }
  assert (∀ fd, Store.closed fd [(EvClose fd, no_answer)] = 1%nat) as Hone.
  { intros fd. unfold Store.closed, Store.is_close; simpl. by rewrite Z.eqb_refl. }
  intros r Hr Hfd.
  destruct env as [|r0 env]; [by destruct Hrun|].
  destruct (Z.ltb_spec (ret r0) 0).
  { destruct Hrun as [-> _]. apply list_elem_of_singleton in Hr as [= ->]. lia. }
  destruct env as [|r1 env]; [by destruct Hrun|].
  destruct (ret r1 <? 0).
  { destruct Hrun as [-> _]. rewrite Hc in * by done.
    set_unfold in Hr. destruct_or!; simplify_eq. split; [done|].
    rewrite StoreFacts.closed_app. apply (Hone (ret r0)). }
  destruct env as [|r2 env]; [by destruct Hrun|].
  destruct (ret r2 <? 0).
  { destruct Hrun as [-> _]. rewrite Hc in * by done.
    set_unfold in Hr. destruct_or!; simplify_eq. split; [done|].
    rewrite StoreFacts.closed_app. apply (Hone (ret r0)). }
  destruct env as [|r3 env]; [by destruct Hrun|].
  destruct (ret r3 <? 0); [|by destruct Hrun as (_ & ? & _)].
  destruct Hrun as [-> _]. rewrite Hc in * by done.
  set_unfold in Hr. destruct_or!; simplify_eq. split; [done|].
  rewrite StoreFacts.closed_app. apply (Hone (ret r0)).
Qed.

Lemma TcpServer_ctor_no_leak_witness :
  track [] (trace_of TcpServer_ctor port_taken) = Some []
  ∧ last (trace_of TcpServer_ctor port_taken) = Some (EvClose 3, no_answer).
Proof.
  destruct (TcpServer_ctor_no_leak port_taken _ _ _ eq_refl) as [H1 H2].
  split; [exact H1|].
  apply (H2 (returns 3)); [by apply list_elem_of_here|simpl; lia].
Defined.

(** ** The descriptors of the roles and of [main] *)

(** X4.  [process_a] works on the connection it is given, whatever the
    script: every call is made on a descriptor it holds, it obtains no
    other, and it closes the connection exactly once, as its last call, when
    it returns and when an exception leaves it; while it waits in a call the
    connection is open. *)
Theorem process_a_descriptor conn env t o rest :
  0 ≤ fd_ conn ->
  run (process_a conn) env = (t, o, rest) ->
  track [fd_ conn] t = Some (if unwound o then [] else [fd_ conn])
  ∧ Store.closed (fd_ conn) t = (if unwound o then 1 else 0)%nat
  ∧ (unwound o = true -> last t = Some (EvClose (fd_ conn), no_answer)).
Proof.
  intros Hfd Hrun. split; [apply (process_a_track _ _ _ _ _ _ Hfd Hrun)|].
  destruct (process_a_shape _ _ _ _ _ Hrun) as (tl & Hl & ->).
  destruct conn as [fd]; simpl in *.
  split.
  - rewrite StoreFacts.closed_app, (closed_loop _ fd "PING") by done.
    destruct o; simpl; by rewrite ?closed_closes_self.
  - destruct o; try done; intros _; by apply last_closes.
Qed.

Lemma process_a_descriptor_witness :
  track [4] (trace_of (process_a (MkSocket 4)) (concat (replicate 6 a_round_ok))) = Some []
  ∧ Store.closed 4 (trace_of (process_a (MkSocket 4)) (concat (replicate 6 a_round_ok)))
    = 1%nat.
Proof.
  pose proof (process_a_descriptor (MkSocket 4) (concat (replicate 6 a_round_ok))
                _ _ _ ltac:(simpl; lia) eq_refl) as (H1 & H2 & _).
  split; [exact H1|exact H2].
Defined.

(** X5.  [process_b] holds at most one descriptor, the one [socket] gave
    it, whatever the script: every call is made on a descriptor it holds,
    and when it returns or an exception leaves it, it has closed what it
    opened. *)
Theorem process_b_descriptor env t o rest :
  run process_b env = (t, o, rest) ->
  ∃ held, track [] t = Some held
          ∧ (unwound o = true -> held = []) ∧ (length held ≤ 1)%nat.
Proof.
  intros Hrun. destruct (process_b_track [] _ _ _ _ Hrun) as (held & H1 & H2 & H3).
  exists held. by rewrite app_nil_r in H1.
Qed.

Lemma process_b_descriptor_witness :
  track [] (trace_of process_b (b_dial_ok ++ concat (replicate 6 b_round_ok))) = Some [].
Proof.
  destruct (process_b_descriptor (b_dial_ok ++ concat (replicate 6 b_round_ok))
              _ _ _ eq_refl) as (held & H1 & H2 & _).
  by rewrite <-(H2 eq_refl).
Defined.

(** X6.  Every run of [main], in the parent and in the child, whatever the
    script: each call is made on a descriptor the process holds at that
    moment (none is used before it was obtained or after it was closed, none
    is closed twice), and descriptors are closed in the reverse order of
    their opening.  When [main] returns, with 0 or with 1, every descriptor
    it opened is closed.  When the child leaves through [_exit], it has
    closed its own socket and holds one descriptor: the listening socket it
    inherited. *)
Theorem main_descriptors env t o rest :
  run main env = (t, o, rest) ->
  ∃ held, track [] t = Some held
          ∧ (∀ c, o = Done c -> held = [])
          ∧ (∀ c, o = Exited c -> ∃ fd r, (EvListen fd 1, r) ∈ t ∧ held = [fd]).
Proof.
  rewrite run_main. destruct (run main_try env) as [[t0 o0] rest0] eqn:Hrun.
  destruct (main_try_track _ _ _ _ Hrun) as (held & H1 & H2 & H3).
  destruct o0 as [c|w|c| |]; intros [= <- <- _].
  - exists held. split; [done|]. split; [by intros; apply H2|done].
  - exists []. split; [|done]. rewrite track_app, H1, (H2 eq_refl). by tracking.
  - exists held. by split.
  - exists held. by split.
  - exists held. by split.
Qed.

Lemma main_descriptors_witness :
  track [] (trace_of main (setup_ok ++ returns 0 :: child_reset)) = Some []
  ∧ ∃ fd, track [] (trace_of main
                      (setup_ok ++ returns 0 :: b_dial_ok
                       ++ concat (replicate 6 b_round_ok)))
          = Some [fd].
Proof.
  split.
  - destruct (main_descriptors (setup_ok ++ returns 0 :: child_reset) _ _ _ eq_refl)
      as (held & H1 & H2 & _).
    by rewrite <-(H2 1 eq_refl).
  - destruct (main_descriptors
                (setup_ok ++ returns 0 :: b_dial_ok ++ concat (replicate 6 b_round_ok))
                _ _ _ eq_refl) as (held & H1 & _ & H3).
    destruct (H3 0 eq_refl) as (fd & r & _ & ->). by exists fd.
Defined.

(** ** The loop of a role, as its rounds *)

Lemma role_loop_iterates n body txt1 txt2 env t o rest :
  run (print Stdout txt1 ;; for_loop n 0 body ;; print Stdout txt2) env = (t, o, rest) ->
  ∃ tl, iterates body n 0 tl o
        ∧ t = (EvPrint Stdout txt1, no_answer) :: tl ++ finished txt2 o.
Proof.
  rewrite run_mbind, run_print. cbn [and_then]. rewrite run_mbind.
  destruct (run (for_loop n 0 body) env) as [[tl ol] restl] eqn:Hl.
  apply run_for_loop in Hl.
  destruct ol as [[]| | | |]; cbn [and_then]; rewrite ?run_print;
    cbn [and_then app]; intros [= <- <- _]; exists tl; split; try done;
    cbn [finished]; by rewrite ?app_nil_r.
Qed.

Lemma process_a_iterates conn env t o rest :
  run (process_a conn) env = (t, o, rest) ->
  ∃ tl, iterates (round_a conn) 6 0 tl o
        ∧ t = (EvPrint Stdout ("[Process A] Initial state: READY" +:+ LF), no_answer)
              :: tl ++ finished ("[Process A] Finished." +:+ LF) o ++ unwinds o conn.
Proof.
  unfold process_a. rewrite run_scope_socket.
  destruct (run _ env) as [[t0 o0] rest0] eqn:Hl. intros [= <- <- _].
  apply role_loop_iterates in Hl as (tl & Hl & ->). exists tl. split; [done|].
  cbn [app]. by rewrite <-app_assoc.
Qed.

Lemma b_loop_iterates sock env t o rest :
  run (b_loop sock) env = (t, o, rest) ->
  ∃ tl, iterates (round_b sock) 6 0 tl o
        ∧ t = (EvPrint Stdout ("[Process B] Initial state: SLEEP" +:+ LF), no_answer)
              :: tl ++ finished ("[Process B] Finished." +:+ LF) o.
Proof. apply role_loop_iterates. Qed.

(** ** After a failure *)

Lemma cleanup_accepted x : cleanup x = true -> accepted x.
Proof. destruct x as [[] r]; try done. Qed.

Lemma fail_fast_accepted t : Forall accepted t -> fail_fast t = true.
Proof.
  induction 1 as [|x t Hx _ IH]; simpl; [done|].
  unfold accepted in Hx. by rewrite Hx, IH.
Qed.

Lemma fail_fast_app_l t1 t2 :
  Forall accepted t1 -> fail_fast (t1 ++ t2) = fail_fast t2.
Proof.
  induction 1 as [|x t Hx _ IH]; simpl; [done|].
  unfold accepted in Hx. by rewrite Hx, IH.
Qed.

Lemma fail_fast_app_r t1 t2 :
  fail_fast t1 = true -> forallb cleanup t2 = true -> fail_fast (t1 ++ t2) = true.
Proof.
  intros H1 H2. induction t1 as [|x t1 IH]; simpl in *.
  - apply fail_fast_accepted, Forall_forall. intros x Hx.
    apply cleanup_accepted. rewrite forallb_forall in H2. apply H2.
    by apply list_elem_of_In.
  - apply andb_prop in H1 as [Hx H1]. rewrite IH by done.
    destruct (failure x); [|done]. by rewrite forallb_app, Hx, H2.
Qed.

Lemma fail_fast_lookup t i j x y :
  fail_fast t = true -> t !! i = Some x -> failed x -> (i < j)%nat ->
  t !! j = Some y -> cleanup y = true.
Proof.
  revert i j; induction t as [|z t IH]; intros i j Ht Hi Hx Hij Hj; [done|].
  simpl in Ht. apply andb_prop in Ht as [Hz Ht].
  destruct j as [|j]; [lia|]. destruct i as [|i]; simpl in *.
  - injection Hi as ->. unfold failed in Hx. destruct (failure x); [|done].
    rewrite forallb_forall in Hz. apply Hz. apply list_elem_of_In.
    by eapply list_elem_of_lookup_2.
  - apply (IH i j); try done. lia.
Qed.

Lemma forallb_cleanup_closes s : forallb cleanup (closes s) = true.
Proof. unfold closes. by destruct (0 <=? fd_ s). Qed.

Lemma forallb_cleanup_unwinds {A} (o : outcome A) s :
  forallb cleanup (unwinds o s) = true.
Proof. destruct o; try done; apply forallb_cleanup_closes. Qed.

Lemma round_a_fail_fast conn i env t o rest :
  run (round_a conn i) env = (t, o, rest) -> fail_fast t = true.
Proof.
  unfold round_a; unfold_calls. intros H.
  crunch; tests; unfold fail_fast, failure; simpl; decide_tests; done.
Qed.

Lemma round_b_fail_fast sock i env t o rest :
  run (round_b sock i) env = (t, o, rest) -> fail_fast t = true.
Proof.
  unfold round_b; unfold_calls. intros H.
  crunch; tests; unfold fail_fast, failure; simpl; decide_tests; done.
Qed.

Lemma iterates_fail_fast body a b P n i t o :
  (∀ i env t o rest, run (body i) env = (t, o, rest) ->
     conforms 1 a b P t o ∧ fail_fast t = true) ->
  iterates body n i t o -> fail_fast t = true.
Proof.
  intros Hbody.
  induction 1 as [i|n i env t o rest Hrun Ho|n i env t rest t' o Hrun Hit IH].
  - done.
  - by destruct (Hbody _ _ _ _ _ Hrun).
  - destruct (Hbody _ _ _ _ _ Hrun) as [Hc _].
    rewrite fail_fast_app_l; [done|]. by apply (cf_accepted _ _ _ _ _ _ Hc).
Qed.

(** A role: its rounds, then what follows them. *)
Lemma role_fail_fast body a b P n tl o pre txt s :
  (∀ i env t o rest, run (body i) env = (t, o, rest) ->
     conforms 1 a b P t o ∧ fail_fast t = true) ->
  iterates body n 0 tl o ->
  Forall accepted pre ->
  fail_fast (pre ++ tl ++ finished txt o ++ unwinds o s) = true.
Proof.
  intros Hbody Hit Hpre. rewrite fail_fast_app_l by done.
  pose proof (iterates_fail_fast _ _ _ _ _ _ _ _ Hbody Hit) as Hff.
  assert (conforms n a b P tl o) as Hc.
  { eapply iterates_conforms; [|done]. intros. by eapply Hbody. }
  destruct o as [[]|w|c| |]; cbn [app unwinds finished]; rewrite ?app_nil_r; try done.
  - apply fail_fast_accepted. rewrite Forall_app, Forall_cons. split_and!; try done.
    + by apply (cf_accepted _ _ _ _ _ _ Hc).
    + apply Forall_forall. intros x Hx. apply cleanup_accepted.
      pose proof (forallb_cleanup_closes s) as H. rewrite forallb_forall in H.
      apply H. by apply list_elem_of_In.
  - apply fail_fast_app_r; [done|apply forallb_cleanup_closes].
Qed.

Lemma process_a_fail_fast conn env t o rest :
  run (process_a conn) env = (t, o, rest) -> fail_fast t = true.
Proof.
  intros Hrun. apply process_a_iterates in Hrun as (tl & Hl & ->).
  apply (role_fail_fast _ Snd Rcv (loop_call (fd_ conn) "PING") _ _ _ [_] _ _
           (λ i env t o rest H, conj (round_a_run _ _ _ _ _ _ H)
                                     (round_a_fail_fast _ _ _ _ _ _ H)) Hl);
    by repeat constructor.
Qed.

Lemma forallb_cleanup_accepted t : forallb cleanup t = true -> Forall accepted t.
Proof.
  intros H. apply Forall_forall. intros x Hx. apply cleanup_accepted.
  rewrite forallb_forall in H. apply H. by apply list_elem_of_In.
Qed.

Lemma Forall_accepted_closes s : Forall accepted (closes s).
Proof. apply forallb_cleanup_accepted, forallb_cleanup_closes. Qed.

(** A call that failed its test after calls that passed theirs, and the
    destructor of a socket after it. *)
Lemma fail_fast_failed pre x s :
  Forall accepted pre -> fail_fast (pre ++ x :: closes s) = true.
Proof.
  intros Hpre. rewrite fail_fast_app_l by done. simpl.
  rewrite forallb_cleanup_closes.
  rewrite fail_fast_accepted by apply Forall_accepted_closes.
  by destruct (failure x).
Qed.

Lemma fail_fast_cons x t : accepted x -> fail_fast (x :: t) = fail_fast t.
Proof. intros Hx. apply (fail_fast_app_l [x]). by constructor. Qed.

Ltac passed :=
  repeat first [apply Forall_nil_2 | apply Forall_cons_2];
  unfold accepted, failure; simpl;
  repeat match goal with H : _ = false |- _ => rewrite H end; done.

Lemma process_b_fail_fast env t o rest :
  run process_b env = (t, o, rest) -> fail_fast t = true.
Proof.
  intros Hrun. apply process_b_cases in Hrun. unfold process_b_run_cases in Hrun.
  destruct env as [|r0 env]; [by destruct Hrun as [-> ->]|].
  destruct (ret r0 <? 0) eqn:H0.
  { destruct Hrun as [-> ->]. simpl. by destruct (failure _). }
  destruct env as [|r1 env];
    [destruct Hrun as [-> ->]; apply fail_fast_accepted; passed|].
  destruct (ret r1 <=? 0) eqn:H1.
  { destruct Hrun as [-> ->]. apply (fail_fast_failed [_]). passed. }
  destruct env as [|r2 env];
    [destruct Hrun as [-> ->]; apply fail_fast_accepted; passed|].
  destruct (ret r2 <? 0) eqn:H2.
  { destruct Hrun as [-> ->]. apply (fail_fast_failed [_; _; _]). passed. }
  destruct Hrun as (tl & Hl & ->). apply b_loop_iterates in Hl as (tl' & Hl & ->).
  cbn [app]. rewrite <-app_assoc.
  apply (role_fail_fast _ Rcv Snd (loop_call (ret r0) "PONG") _ _ _
           [_; _; _; _; _] _ _
           (λ i env t o rest H, conj (round_b_run (MkSocket (ret r0)) _ _ _ _ _ H)
                                     (round_b_fail_fast _ _ _ _ _ _ H)) Hl);
    passed.
Qed.

Lemma TcpServer_ctor_fail_fast env t o rest :
  run TcpServer_ctor env = (t, o, rest) -> fail_fast t = true.
Proof.
  intros Hrun. apply TcpServer_ctor_shape in Hrun. unfold TcpServer_ctor_cases in Hrun.
  destruct env as [|r0 env]; [by destruct Hrun as [-> ->]|].
  destruct (ret r0 <? 0) eqn:H0.
  { destruct Hrun as [-> ->]. simpl. by destruct (failure _). }
  destruct env as [|r1 env];
    [destruct Hrun as [-> ->]; apply fail_fast_accepted; passed|].
  destruct (ret r1 <? 0) eqn:H1.
  { destruct Hrun as [-> ->]. apply (fail_fast_failed [_]). passed. }
  destruct env as [|r2 env];
    [destruct Hrun as [-> ->]; apply fail_fast_accepted; passed|].
  destruct (ret r2 <? 0) eqn:H2.
  { destruct Hrun as [-> ->]. apply (fail_fast_failed [_; _]). passed. }
  destruct env as [|r3 env];
    [destruct Hrun as [-> ->]; apply fail_fast_accepted; passed|].
  destruct (ret r3 <? 0) eqn:H3.
  { destruct Hrun as [-> ->]. apply (fail_fast_failed [_; _; _]). passed. }
  destruct Hrun as (-> & _). apply fail_fast_accepted; passed.
Qed.

Lemma main_try_fail_fast env t o rest :
  run main_try env = (t, o, rest) -> fail_fast t = true.
Proof.
  intros Hrun. apply main_try_shape in Hrun.
  destruct Hrun as (ts & os & env0 & Hs & Hcase).
  pose proof (TcpServer_ctor_fail_fast _ _ _ _ Hs) as Hff.
  pose proof (TcpServer_ctor_run _ _ _ _ Hs) as Hsu.
  assert (accepted banner) as Hb by done.
  destruct os as [srv|w|c| |];
    try (destruct Hcase as [-> ->]; by rewrite fail_fast_cons).
  pose proof (su_accepted _ _ Hsu _ eq_refl) as Hts. cbv zeta in Hcase.
  destruct env0 as [|r4 env1].
  { destruct Hcase as [-> ->]. by rewrite fail_fast_cons. }
  destruct (ret r4 <? 0) eqn:H4.
  { destruct Hcase as [-> ->]. apply (fail_fast_failed (banner :: ts)).
    by constructor. }
  destruct Hcase as (t' & -> & Hcase).
  rewrite fail_fast_cons by done.
  rewrite fail_fast_app_l by done.
  rewrite fail_fast_cons by passed.
  destruct (ret r4 =? 0).
  - destruct Hcase as (tb & ob & restb & Hrb & Hcase).
    pose proof (process_b_fail_fast _ _ _ _ Hrb) as Hffb.
    destruct ob as [[]|w|c| |]; destruct Hcase as [-> ->]; try done.
    apply fail_fast_app_r; [done|apply forallb_cleanup_closes].
  - unfold parent_cases in Hcase.
    destruct env1 as [|r5 env2]; [by destruct Hcase as [-> ->]|].
    destruct (ret r5 <? 0) eqn:H5.
    { destruct Hcase as [-> ->]. by apply (fail_fast_failed []). }
    destruct Hcase as (ta & oa & resta & Hra & Hcase).
    pose proof (process_a_fail_fast _ _ _ _ _ Hra) as Hffa.
    pose proof (process_a_run _ _ _ _ _ Hra) as Hca.
    assert (∀ t2, fail_fast ((EvAccept (fd_ (listen_fd_ srv)), r5) :: t2) = fail_fast t2)
      as Hacc.
    { intros t2. apply fail_fast_cons. passed. }
    destruct oa as [[]|w|c| |].
    + pose proof (cf_accepted _ _ _ _ _ _ Hca eq_refl) as Hta.
      destruct resta as [|r6 resta]; destruct Hcase as [-> ->]; rewrite Hacc; [done|].
      apply fail_fast_accepted. rewrite !Forall_app. split_and!; [done|passed|].
      apply Forall_accepted_closes.
    + destruct Hcase as [-> ->]. rewrite Hacc.
      apply fail_fast_app_r; [done|apply forallb_cleanup_closes].
    + destruct Hcase as [-> ->]. by rewrite Hacc.
    + destruct Hcase as [-> ->]. by rewrite Hacc.
    + destruct Hcase as [-> ->]. by rewrite Hacc.
Qed.

Lemma main_fail_fast env : fail_fast (trace_of main env) = true.
Proof.
  unfold trace_of. rewrite run_main.
  destruct (run main_try env) as [[t o] rest] eqn:Hrun.
  apply main_try_fail_fast in Hrun.
  destruct o; try done. simpl. by apply fail_fast_app_r.
Qed.

(** X7.  No run of [main] goes on after a failure.  Once a call has failed
    the test the source applies to it, every later call of the process is
    the [close] of a descriptor or the report on the error stream: nothing
    is retried, nothing more is sent or received, and nothing more is
    written to the standard output. *)
Theorem main_fails_fast env i j x y :
  trace_of main env !! i = Some x -> failed x -> (i < j)%nat ->
  trace_of main env !! j = Some y ->
  cleanup y = true.
Proof. apply fail_fast_lookup, main_fail_fast. Qed.

Lemma main_fails_fast_witness :
  trace_of main port_taken !! 3%nat = Some (EvBind 3 PORT, fails (-1) "Address already in use")
  ∧ cleanup (EvClose 3, no_answer) = true.
Proof.
  split; [reflexivity|].
  apply (main_fails_fast port_taken 3 4
           (EvBind 3 PORT, fails (-1) "Address already in use"));
    [reflexivity|by unfold failed|lia|reflexivity].
Defined.

(** ** [accept_client] *)

(** X3.  [accept_client] makes one call, [accept] on the listening socket,
    whatever the script.  The socket it returns holds the descriptor that
    [accept] returned, which is not negative; the only error it throws is
    that of [sys_error("accept")], for a negative result: the test in the
    constructor of [Socket] never fails here.  It ends in no other way,
    unless [accept] does not return. *)
Theorem accept_client_handle srv env t o rest :
  run (accept_client srv) env = (t, o, rest) ->
  (∀ s, o = Done s ->
     ∃ r, t = [(EvAccept (fd_ (listen_fd_ srv)), r)] ∧ fd_ s = ret r ∧ 0 ≤ fd_ s)
  ∧ (∀ w, o = Raised w ->
       ∃ r, t = [(EvAccept (fd_ (listen_fd_ srv)), r)] ∧ ret r < 0
            ∧ w = "accept" +:+ ": " +:+ text r)
  ∧ (o = Blocked -> env = [] ∧ t = [])
  ∧ (∀ c, o ≠ Exited c) ∧ o ≠ UB.
Proof.
  unfold accept_client, Socket_of_fd. unfold_calls. intros H.
  crunch; tests; split_and!; try done.
  - intros s [= <-]. by eexists.
  - intros w [= <-]. by eexists.
Qed.

Lemma accept_client_handle_witness :
  ∃ r, trace_of (accept_client (MkTcpServer (MkSocket 3))) [returns 4]
       = [(EvAccept 3, r)] ∧ 4 = ret r ∧ 0 ≤ 4.
Proof.
  destruct (accept_client_handle (MkTcpServer (MkSocket 3)) [returns 4] _ _ _ eq_refl)
    as (H & _).
  apply (H (MkSocket 4) eq_refl).
Defined.

(** ** A message sent and received *)

(** X8.  [send_str] and [recv_str] fit together.  When the view given to
    [send_str] is followed by a null in its storage (as a literal is), its
    text holds no null and is shorter than 128 bytes, and the write is
    accepted, the bytes written are the text and the null; and a
    [recv_str] whose read delivers these bytes returns the text. *)
Theorem send_recv_round_trip a b (s : string_view) msg tail rs stack env env' :
  sv_data s = msg ++ x00 :: tail -> sv_size s = length msg ->
  null_free msg = true -> (length msg < 128)%nat -> 0 ≤ ret rs ->
  ∃ bytes,
    run (send_str a s) (rs :: env) = ([(EvSend (fd_ a) bytes, rs)], Done tt, env)
    ∧ bytes = msg ++ [x00]
    ∧ run (recv_str b) (stack :: delivers bytes :: env')
      = ([(EvStack 128, stack); (EvRecv (fd_ b) 128, delivers bytes)], Done msg, env').
Proof.
  intros Hdata Hsize Hnull Hlen Hret. exists (msg ++ [x00]). split; [|split; [done|]].
  - unfold send_str. unfold_calls. simpl. rewrite Hdata, Hsize.
    replace (take (length msg + 1) (msg ++ x00 :: tail)) with (msg ++ [x00]).
    + by destruct (Z.ltb_spec (ret rs) 0); [lia|].
    + rewrite take_app_ge by lia.
      replace (length msg + 1 - length msg)%nat with 1%nat by lia. done.
  - apply (recv_str_null _ _ _ _ msg []); try done.
    simpl. rewrite length_app. simpl. lia.
Qed.

Lemma send_recv_round_trip_witness :
  ∃ bytes,
    run (send_str (MkSocket 4) (literal "PING")) [returns 5]
    = ([(EvSend 4 bytes, returns 5)], Done tt, [])
    ∧ bytes = msg0 "PING"
    ∧ run (recv_str (MkSocket 5)) [holds (zeroes 128); delivers bytes]
      = ([(EvStack 128, holds (zeroes 128)); (EvRecv 5 128, delivers bytes)],
         Done (list_byte_of_string "PING"), []).
Proof.
  apply (send_recv_round_trip (MkSocket 4) (MkSocket 5) (literal "PING")
           (list_byte_of_string "PING") [] (returns 5) (holds (zeroes 128)) [] []);
    [reflexivity|reflexivity|reflexivity|simpl; lia|simpl; lia].
Defined.

(** ** Where the behaviour is undefined *)

Lemma c_str_None d mem : c_str (d ++ mem) = None -> null_free d = true.
Proof.
  induction d as [|b d IH]; simpl; [done|].
  destruct (Byte.eqb b x00); [done|]. simpl.
  destruct (c_str (d ++ mem)); [done|]. auto.
Qed.

Lemma last_prefixed {A} (pre t : list A) x :
  last t = Some x -> last (pre ++ t) = Some x.
Proof. intros H. by rewrite last_app, H. Qed.

Lemma round_a_undefined conn i env t rest :
  run (round_a conn i) env = (t, UB, rest) ->
  ∃ x, last t = Some x ∧ unterminated x = true.
Proof.
  unfold round_a; unfold_calls. intros H. crunch.
  eexists. split; [reflexivity|].
  unfold unterminated, received; simpl. tests.
  destruct (Z.ltb_spec 0 (ret r1)); [|lia]. simpl.
  by eapply c_str_None.
Qed.

Lemma round_b_undefined sock i env t rest :
  run (round_b sock i) env = (t, UB, rest) ->
  ∃ x, last t = Some x ∧ unterminated x = true.
Proof.
  unfold round_b; unfold_calls. intros H. crunch.
  eexists. split; [reflexivity|].
  unfold unterminated, received; simpl. tests.
  destruct (Z.ltb_spec 0 (ret r0)); [|lia]. simpl.
  by eapply c_str_None.
Qed.

Lemma iterates_undefined body n i t o :
  (∀ i env t rest, run (body i) env = (t, UB, rest) ->
     ∃ x, last t = Some x ∧ unterminated x = true) ->
  iterates body n i t o -> o = UB ->
  ∃ x, last t = Some x ∧ unterminated x = true.
Proof.
  intros Hbody.
  induction 1 as [i|n i env t o rest Hrun Ho|n i env t rest t' o Hrun Hit IH];
    intros Hub; [done|subst o; by eapply Hbody|].
  destruct (IH Hub) as (x & Hx & Hu). exists x. split; [|done].
  by apply last_prefixed.
Qed.

Lemma process_a_undefined conn env t rest :
  run (process_a conn) env = (t, UB, rest) ->
  ∃ x, last t = Some x ∧ unterminated x = true.
Proof.
  intros Hrun. apply process_a_iterates in Hrun as (tl & Hl & ->).
  destruct (iterates_undefined _ _ _ _ _ (round_a_undefined conn) Hl eq_refl)
    as (x & Hx & Hu).
  exists x. split; [|done]. cbn [finished unwinds app]. rewrite app_nil_r.
  by apply (last_prefixed [_]).
Qed.

Lemma process_b_undefined env t rest :
  run process_b env = (t, UB, rest) ->
  ∃ x, last t = Some x ∧ unterminated x = true.
Proof.
  intros Hrun. apply process_b_cases in Hrun. unfold process_b_run_cases in Hrun.
  destruct env as [|r0 env]; [by destruct Hrun|].
  destruct (ret r0 <? 0); [by destruct Hrun|].
  destruct env as [|r1 env]; [by destruct Hrun|].
  destruct (ret r1 <=? 0); [by destruct Hrun|].
  destruct env as [|r2 env]; [by destruct Hrun|].
  destruct (ret r2 <? 0); [by destruct Hrun|].
  destruct Hrun as (tl & Hl & ->). apply b_loop_iterates in Hl as (tl' & Hl & ->).
  destruct (iterates_undefined _ _ _ _ _ (round_b_undefined (MkSocket (ret r0))) Hl eq_refl)
    as (x & Hx & Hu).
  exists x. split; [|done]. cbn [finished unwinds]. rewrite !app_nil_r.
  apply last_prefixed. by apply (last_prefixed [_]).
Qed.

Lemma main_try_undefined env t rest :
  run main_try env = (t, UB, rest) ->
  ∃ x, last t = Some x ∧ unterminated x = true.
Proof.
  intros Hrun. apply main_try_shape in Hrun.
  destruct Hrun as (ts & os & env0 & Hs & Hcase).
  apply TcpServer_ctor_track in Hs.
  destruct os as [srv|w|c| |]; try done; [|by destruct Hcase..].
  cbv zeta in Hcase.
  destruct env0 as [|r4 env1]; [by destruct Hcase|].
  destruct (ret r4 <? 0); [by destruct Hcase|].
  destruct Hcase as (t' & -> & Hcase).
  enough (∃ x, last t' = Some x ∧ unterminated x = true) as (x & Hx & Hu).
  { exists x. split; [|done]. apply (last_prefixed [_]), last_prefixed.
    by apply (last_prefixed [_]). }
  destruct (ret r4 =? 0).
  - destruct Hcase as (tb & ob & restb & Hb & Hcase).
    destruct ob as [[]|w|c| |]; destruct Hcase as [-> Ho]; simpl in Ho; try done.
    by eapply process_b_undefined.
  - unfold parent_cases in Hcase.
    destruct env1 as [|r5 env2]; [by destruct Hcase|].
    destruct (ret r5 <? 0); [by destruct Hcase|].
    destruct Hcase as (ta & oa & resta & Ha & Hcase).
    destruct oa as [[]|w|c| |]; [by destruct resta; destruct Hcase|..];
      destruct Hcase as [-> Ho]; simpl in Ho; try done.
    + destruct (process_a_undefined _ _ _ _ Ha) as (x & Hx & Hu).
      exists x. split; [|done]. by apply (last_prefixed [_]).
Qed.

(** X9.  The one place where the program leaves defined behaviour is the
    construction of the string in [recv_str].  A run of [main] ends there
    only when its last call is a read that was accepted and that stored no
    null among the (at most 128) bytes it delivered: the scan for the
    terminator then goes on into what the buffer held before.  A process
    whose reads all deliver a terminator never gets there. *)
Theorem main_undefined_only_unterminated env t rest :
  run main env = (t, UB, rest) ->
  ∃ x, last t = Some x ∧ received x = true
       ∧ null_free (take 128 (data x.2)) = true.
Proof.
  rewrite run_main. destruct (run main_try env) as [[t0 o0] rest0] eqn:Hrun.
  destruct o0 as [c|w|c| |]; intros [= <- <-].
  destruct (main_try_undefined _ _ _ Hrun) as (x & Hx & Hu).
  apply andb_prop in Hu as [??]. by exists x.
Qed.

Lemma main_undefined_only_unterminated_witness :
  ∃ x, last (trace_of main (setup_ok ++ [returns 9; returns 4; returns 5; holds [];
                                          delivers (list_byte_of_string "PONG")]))
       = Some x
       ∧ received x = true ∧ null_free (take 128 (data x.2)) = true.
Proof.
  apply (main_undefined_only_unterminated
           (setup_ok ++ [returns 9; returns 4; returns 5; holds [];
                         delivers (list_byte_of_string "PONG")]) _ []).
  reflexivity.
Defined.

(** ** The two sides of [fork] *)

Lemma TcpServer_ctor_done env t srv rest :
  run TcpServer_ctor env = (t, Done srv, rest) ->
  ∃ r0 r1 r2 r3,
    env = r0 :: r1 :: r2 :: r3 :: rest
    ∧ t = [(EvSocket, r0); (EvSetsockopt (ret r0), r1);
           (EvBind (ret r0) 9889, r2); (EvListen (ret r0) 1, r3)]
    ∧ srv = MkTcpServer (MkSocket (ret r0))
    ∧ 0 ≤ ret r0 ∧ 0 ≤ ret r1 ∧ 0 ≤ ret r2 ∧ 0 ≤ ret r3.
Proof.
  intros Hrun. apply TcpServer_ctor_shape in Hrun. unfold TcpServer_ctor_cases in Hrun.
  destruct env as [|r0 env]; [by destruct Hrun|].
  destruct (Z.ltb_spec (ret r0) 0); [by destruct Hrun|].
  destruct env as [|r1 env]; [by destruct Hrun|].
  destruct (Z.ltb_spec (ret r1) 0); [by destruct Hrun|].
  destruct env as [|r2 env]; [by destruct Hrun|].
  destruct (Z.ltb_spec (ret r2) 0); [by destruct Hrun|].
  destruct env as [|r3 env]; [by destruct Hrun|].
  destruct (Z.ltb_spec (ret r3) 0); [by destruct Hrun|].
  destruct Hrun as (-> & [= ->] & ->). by exists r0, r1, r2, r3.
Qed.

Lemma TcpServer_ctor_calls env t o rest :
  run TcpServer_ctor env = (t, o, rest) -> Forall (λ x, ctor_call x = true) t.
Proof.
  unfold TcpServer_ctor, Socket_of_fd, Socket_move_assign, Socket_dtor, Socket_default.
  unfold_calls. intros H. crunch; by repeat constructor.
Qed.

Lemma Forall_closes_call (P : entry -> bool) s :
  P (EvClose (fd_ s), no_answer) = true -> Forall (λ x, P x = true) (closes s).
Proof. intros H. unfold closes. destruct (0 <=? fd_ s); by repeat constructor. Qed.

Lemma role_call_child lfd fd x : role_call fd "PONG" x -> child_call lfd fd x = true.
Proof.
  intros [H|H]; [|unfold child_call; by rewrite H, Z.eqb_refl].
  destruct x as [[] r]; unfold loop_call in H; simpl in H; try done;
    unfold child_call; simpl; destruct H as [-> _]; apply Z.eqb_refl.
Qed.

Lemma b_call_child lfd fd x : b_call fd x -> child_call lfd fd x = true.
Proof.
  intros [H|[H|[H|H]]]; [by apply role_call_child|unfold child_call; rewrite H..].
  - done.
  - done.
  - by rewrite Z.eqb_refl.
Qed.

Lemma role_call_parent lfd pid fd x :
  role_call fd "PING" x -> parent_call lfd pid fd x = true.
Proof.
  intros [H|H]; [|unfold parent_call; by rewrite H, Z.eqb_refl].
  destruct x as [[] r]; unfold loop_call in H; simpl in H; try done;
    unfold parent_call; simpl; destruct H as [-> _]; apply Z.eqb_refl.
Qed.

Lemma Forall_snoc_call (P : entry -> bool) t x :
  Forall (λ x, P x = true) t -> P x = true -> Forall (λ x, P x = true) (t ++ [x]).
Proof. intros. apply Forall_app. by repeat constructor. Qed.

Ltac among H :=
  repeat (apply elem_of_cons in H as [H|H]; [simplify_eq/=; try done|]);
  try (by apply elem_of_nil in H).

Lemma loop_call_not_socket fd token r : ¬ loop_call fd token (EvSocket, r).
Proof. by intros []. Qed.

Lemma process_b_socket env t o rest r :
  run process_b env = (t, o, rest) -> (EvSocket, r) ∈ t -> ret r = socket_of env.
Proof.
  intros Hrun Hr. apply process_b_cases in Hrun. unfold process_b_run_cases in Hrun.
  assert (∀ s, (EvSocket, r) ∉ closes s) as Hcl.
  { intros s H. unfold closes in H. destruct (0 <=? fd_ s); among H. }
  destruct env as [|r0 env]; [destruct Hrun as [-> _]; among Hr|].
  unfold socket_of. cbn [head default].
  destruct (ret r0 <? 0); [destruct Hrun as [-> _]; among Hr|].
  destruct env as [|r1 env]; [destruct Hrun as [-> _]; among Hr|].
  destruct (ret r1 <=? 0).
  { destruct Hrun as [-> _]. apply elem_of_app in Hr as [Hr|Hr]; [among Hr|].
    by destruct (Hcl _ Hr). }
  destruct env as [|r2 env]; [destruct Hrun as [-> _]; among Hr|].
  destruct (ret r2 <? 0).
  { destruct Hrun as [-> _]. apply elem_of_app in Hr as [Hr|Hr]; [among Hr|].
    by destruct (Hcl _ Hr). }
  destruct Hrun as (tl & Hl & ->). apply b_loop_run in Hl.
  pose proof (cf_calls _ _ _ _ _ _ Hl) as Hcalls. rewrite Forall_forall in Hcalls.
  apply elem_of_app in Hr as [Hr|Hr]; [among Hr|].
  apply elem_of_app in Hr as [Hr|Hr].
  - by destruct (loop_call_not_socket _ _ _ (Hcalls _ Hr)).
  - destruct o; try (by destruct (Hcl _ Hr)); among Hr.
Qed.

(** The [try] block of [main]: the set-up, [fork], and one of the sides. *)
Lemma main_try_sides env t o rest :
  run main_try env = (t, o, rest) ->
  (Forall (λ x, match x.1 with EvFork => False | _ => True end) t)
  ∨ ∃ r0 r1 r2 r3 r4 fd t',
      t = [banner; (EvSocket, r0); (EvSetsockopt (ret r0), r1);
           (EvBind (ret r0) PORT, r2); (EvListen (ret r0) 1, r3); (EvFork, r4)] ++ t'
      ∧ 0 ≤ ret r0 ∧ 0 ≤ ret r1 ∧ 0 ≤ ret r2 ∧ 0 ≤ ret r3
      ∧ if ret r4 =? 0
        then Forall (λ x, child_call (ret r0) fd x = true) t'
             ∧ (∀ r, (EvSocket, r) ∈ t' -> ret r = fd)
             ∧ (∀ c, o ≠ Done c)
        else Forall (λ x, parent_call (ret r0) (ret r4) fd x = true) t'
             ∧ (∀ r, (EvAccept (ret r0), r) ∈ t' -> ret r = fd)
             ∧ (∀ c, o ≠ Exited c).
Proof.
  intros Hrun. apply main_try_shape in Hrun.
  destruct Hrun as (ts & os & env0 & Hs & Hcase).
  assert (Forall (λ x, match x.1 with EvFork => False | _ => True end) (banner :: ts))
    as Hnf.
  { constructor; [done|]. eapply Forall_impl; [by eapply TcpServer_ctor_calls|].
    by intros [[] r]. }
  destruct os as [srv|w|c| |]; try (destruct Hcase as [-> ->]; by left).
  cbv zeta in Hcase.
  destruct env0 as [|r4 env1]; [destruct Hcase as [-> ->]; by left|].
  right. apply TcpServer_ctor_done in Hs
    as (r0 & r1 & r2 & r3 & _ & -> & -> & H0 & H1 & H2 & H3).
  cbn [fd_ listen_fd_] in Hcase. exists r0, r1, r2, r3, r4.
  assert (∀ fd, Forall (λ x, parent_call (ret r0) (ret r4) fd x = true)
                  (closes (MkSocket (ret r0)))) as Hcl.
  { intros fd. apply Forall_closes_call. unfold parent_call; simpl.
    by rewrite Z.eqb_refl, orb_true_r. }
  assert (∀ s r, (EvAccept (ret r0), r) ∉ closes s) as Hna.
  { intros s r H. unfold closes in H. destruct (0 <=? fd_ s); among H. }
  assert (∀ s r, (EvSocket, r) ∉ closes s) as Hns.
  { intros s r H. unfold closes in H. destruct (0 <=? fd_ s); among H. }
  destruct (ret r4 <? 0) eqn:H4.
  { destruct Hcase as [-> ->]. exists 0. eexists. split; [reflexivity|].
    apply Z.ltb_lt in H4.
    split_and!; try done. destruct (Z.eqb_spec (ret r4) 0); [lia|].
    split_and!; try done. intros r Hr. by destruct (Hna _ _ Hr). }
  destruct Hcase as (t' & -> & Hcase).
  destruct (ret r4 =? 0).
  - destruct Hcase as (tb & ob & restb & Hb & Hcase).
    exists (socket_of env1), t'. split; [done|]. do 4 (split; [done|]).
    pose proof (cf_calls _ _ _ _ _ _ (process_b_run _ _ _ _ Hb)) as Hcalls.
    assert (Forall (λ x, child_call (ret r0) (socket_of env1) x = true) tb) as Htb.
    { eapply Forall_impl; [done|]. intros x. apply b_call_child. }
    split_and!.
    + destruct ob as [[]|w|c| |]; destruct Hcase as [-> _]; try done.
      apply Forall_app. split; [done|].
      apply Forall_closes_call. unfold child_call; simpl.
      by rewrite Z.eqb_refl, orb_true_r.
    + intros r Hr. apply (process_b_socket _ _ _ _ _ Hb).
      destruct ob as [[]|w|c| |]; destruct Hcase as [-> _]; try done.
      apply elem_of_app in Hr as [Hr|Hr]; [done|]. by destruct (Hns _ _ Hr).
    + destruct ob as [[]|w|c| |]; destruct Hcase as [_ ->]; done.
  - unfold parent_cases in Hcase. cbn [fd_] in Hcase.
    destruct env1 as [|r5 env2].
    { destruct Hcase as [-> ->]. exists 0, []. split_and!; try done. intros r Hr. among Hr. }
    assert (∀ fd, parent_call (ret r0) (ret r4) fd (EvAccept (ret r0), r5) = true)
      as Hacc by (intros; apply Z.eqb_refl).
    exists (ret r5), t'. split; [done|]. do 4 (split; [done|]).
    destruct (ret r5 <? 0).
    { destruct Hcase as [-> ->]. split_and!; try done; [by constructor|].
      intros r [[= ->]|Hr]%elem_of_cons; [done|]. by destruct (Hna _ _ Hr). }
    destruct Hcase as (ta & oa & resta & Ha & Hcase).
    pose proof (process_a_run _ _ _ _ _ Ha) as Hca.
    pose proof (cf_calls _ _ _ _ _ _ Hca) as Hcalls.
    assert (Forall (λ x, parent_call (ret r0) (ret r4) (ret r5) x = true) ta) as Hta.
    { eapply Forall_impl; [done|]. intros x. apply role_call_parent. }
    assert (∀ r, (EvAccept (ret r0), r) ∉ ta) as Hnta.
    { intros r Hr. rewrite Forall_forall in Hcalls.
      destruct (Hcalls _ Hr) as [H|H]; [by destruct H|done]. }
    assert (∀ tail r, (∀ r, (EvAccept (ret r0), r) ∉ tail) ->
              (EvAccept (ret r0), r) ∈ (EvAccept (ret r0), r5) :: ta ++ tail ->
              ret r = ret r5) as Hone.
    { intros tail r Htail [[= ->]|Hr]%elem_of_cons; [done|].
      apply elem_of_app in Hr as [Hr|Hr]; [by destruct (Hnta _ Hr)|].
      by destruct (Htail _ Hr). }
    destruct oa as [[]|w|c| |].
    + destruct resta as [|r6 resta]; destruct Hcase as [-> ->].
      * split_and!; [by constructor| |done].
        intros r Hr. apply (Hone [] r); [intros r' Hr'; among Hr'|by rewrite app_nil_r].
      * split_and!; [| |done].
        -- constructor; [done|]. rewrite !Forall_app. split_and!; try done.
           repeat constructor. apply Z.eqb_refl.
        -- intros r Hr. apply (Hone _ r) in Hr; [done|].
           intros r' Hr'. apply elem_of_app in Hr' as [Hr'|Hr']; [among Hr'|].
           by destruct (Hna _ _ Hr').
    + destruct Hcase as [-> ->]. split_and!; [| |done].
      * constructor; [done|]. by apply Forall_app.
      * intros r Hr. by apply (Hone _ r) in Hr.
    + by destruct (cf_no_exit _ _ _ _ _ _ Hca c).
    + destruct Hcase as [-> ->]. split_and!; [by constructor| |done].
      intros r Hr. apply (Hone [] r); [intros r' Hr'; among Hr'|by rewrite app_nil_r].
    + destruct Hcase as [-> ->]. split_and!; [by constructor| |done].
      intros r Hr. apply (Hone [] r); [intros r' Hr'; among Hr'|by rewrite app_nil_r].
Qed.

(** X10.  In every run of [main], [fork] is called at most once, and only
    as the sixth call: after the banner and after [socket], [setsockopt],
    [bind] to [PORT] and [listen] all succeeded, so that the server is
    listening before the child exists.  After a [fork] that returned 0 the
    process makes only the calls of the child (never [accept], [waitpid] or
    another [fork]; it dials 127.0.0.1 at the port that was bound) and never
    returns 0 from [main]: it leaves through [_exit], or returns 1.  After a
    [fork] that returned anything else the process makes only the calls of
    the parent ([accept] on the listening socket only, [waitpid] for the pid
    that [fork] returned only; never [socket], [connect] or another [fork])
    and never leaves through [_exit]. *)
Theorem main_sides env t o rest :
  run main env = (t, o, rest) ->
  ∀ r, (EvFork, r) ∈ t ->
    ∃ r0 r1 r2 r3 fd,
      take 6 t = [banner; (EvSocket, r0); (EvSetsockopt (ret r0), r1);
                  (EvBind (ret r0) 9889, r2); (EvListen (ret r0) 1, r3); (EvFork, r)]
      ∧ 0 ≤ ret r0 ∧ 0 ≤ ret r1 ∧ 0 ≤ ret r2 ∧ 0 ≤ ret r3
      ∧ if ret r =? 0
        then Forall (λ x, child_call (ret r0) fd x = true) (drop 6 t)
             ∧ (∀ r', (EvSocket, r') ∈ drop 6 t -> ret r' = fd)
             ∧ o ≠ Done 0
        else Forall (λ x, parent_call (ret r0) (ret r) fd x = true) (drop 6 t)
             ∧ (∀ r', (EvAccept (ret r0), r') ∈ drop 6 t -> ret r' = fd)
             ∧ ∀ c, o ≠ Exited c.
Proof.
  rewrite run_main. destruct (run main_try env) as [[t0 o0] rest0] eqn:Hrun.
  apply main_try_sides in Hrun.
  intros Ht r Hr.
  assert (∃ tail, t = t0 ++ tail
                  ∧ Forall (λ x, ∃ txt, x.1 = EvPrint Stderr txt) tail
                  ∧ ((∀ c, o0 ≠ Done c) -> o ≠ Done 0)
                  ∧ ((∀ c, o0 ≠ Exited c) -> ∀ c, o ≠ Exited c))
    as (tail & -> & Htail & Hd & He).
  { destruct o0 as [c|w|c| |]; injection Ht as <- <- _.
    - exists []. rewrite app_nil_r. split_and!; try done; intros H; by destruct (H c).
    - eexists. split_and!; try done. by repeat econstructor.
    - exists []. rewrite app_nil_r. split_and!; try done; intros H; by destruct (H c).
    - exists []. rewrite app_nil_r. by split_and!.
    - exists []. rewrite app_nil_r. by split_and!. }
  destruct Hrun as [Hnf|(r0 & r1 & r2 & r3 & r4 & fd & t' & -> & H0 & H1 & H2 & H3 & Hside)].
  { apply elem_of_app in Hr as [Hr|Hr].
    - rewrite Forall_forall in Hnf. by destruct (Hnf _ Hr).
    - rewrite Forall_forall in Htail. by destruct (Htail _ Hr) as [txt ?]. }
  assert (Forall (λ x, match x.1 with EvFork => False | _ => True end) (t' ++ tail)) as Hnf.
  { apply Forall_app. split.
    - destruct (ret r4 =? 0); destruct Hside as [Hside _];
        (eapply Forall_impl; [done|]); by intros [[] ?].
    - eapply Forall_impl; [done|]. by intros [[] ?] [? [=]]. }
  assert (r = r4) as ->.
  { cbn [app] in Hr. rewrite Forall_forall in Hnf.
    repeat (apply elem_of_cons in Hr as [Hr|Hr]; [try done|]); [by injection Hr|].
    by destruct (Hnf _ Hr). }
  exists r0, r1, r2, r3, fd. split; [done|]. split_and!; try done.
  cbn [app drop].
  destruct (ret r4 =? 0).
  - destruct Hside as (Hc & Hfd & Ho). split_and!; [| |by apply Hd].
    + apply Forall_app. split; [done|].
      eapply Forall_impl; [done|]. by intros [[] ?] [? [= -> ->]].
    + intros r' [Hr'|Hr']%elem_of_app; [by apply Hfd|].
      rewrite Forall_forall in Htail. by destruct (Htail _ Hr') as [? [=]].
  - destruct Hside as (Hc & Hfd & Ho). split_and!; [| |by apply He].
    + apply Forall_app. split; [done|].
      eapply Forall_impl; [done|]. by intros [[] ?] [? [= -> ->]].
    + intros r' [Hr'|Hr']%elem_of_app; [by apply Hfd|].
      rewrite Forall_forall in Htail. by destruct (Htail _ Hr') as [? [=]].
Qed.

Lemma main_sides_witness :
  ∃ r0 r1 r2 r3 fd,
    take 6 (trace_of main (setup_ok ++ returns 0 :: child_reset))
    = [banner; (EvSocket, r0); (EvSetsockopt (ret r0), r1);
       (EvBind (ret r0) 9889, r2); (EvListen (ret r0) 1, r3); (EvFork, returns 0)]
    ∧ Forall (λ x, child_call (ret r0) fd x = true)
        (drop 6 (trace_of main (setup_ok ++ returns 0 :: child_reset))).
Proof.
  destruct (main_sides (setup_ok ++ returns 0 :: child_reset) _ _ _ eq_refl (returns 0))
    as (r0 & r1 & r2 & r3 & fd & H1 & _ & _ & _ & _ & H2 & _).
  - apply (list_elem_of_lookup_2 _ 5). reflexivity.
  - by exists r0, r1, r2, r3, fd.
Defined.

(** ** The log of the rounds *)

Lemma headers_app t1 t2 : headers (t1 ++ t2) = headers t1 ++ headers t2.
Proof. apply List.filter_app. Qed.

Lemma headers_closes s : headers (closes s) = [].
Proof. unfold closes. by destruct (0 <=? fd_ s). Qed.

Lemma headers_unwinds {A} (o : outcome A) s : headers (unwinds o s) = [].
Proof. destruct o; try done; apply headers_closes. Qed.

Lemma round_a_headers conn i env t o rest :
  run (round_a conn i) env = (t, o, rest) -> headers t = [header "A" (i + 1)].
Proof. unfold round_a; unfold_calls. intros H. crunch; reflexivity. Qed.

Lemma round_b_headers sock i env t o rest :
  run (round_b sock i) env = (t, o, rest) -> headers t = [header "B" (i + 1)].
Proof. unfold round_b; unfold_calls. intros H. crunch; reflexivity. Qed.

Lemma header_seq_shift tag i a k :
  (λ j, header tag (i + 1 + Z.of_nat j)) <$> seq a k
  = (λ j, header tag (i + Z.of_nat j)) <$> seq (S a) k.
Proof.
  revert a; induction k as [|k IH]; intros a; [done|].
  cbn [seq fmap list_fmap]. f_equal; [|apply IH].
  f_equal. lia.
Qed.

Lemma iterates_headers body tag n i t o :
  (∀ i env t o rest, run (body i) env = (t, o, rest) ->
     headers t = [header tag (i + 1)]) ->
  iterates body n i t o ->
  ∃ k, (k ≤ n)%nat
       ∧ headers t = (λ j, header tag (i + Z.of_nat j)) <$> seq 1 k
       ∧ (o = Done tt -> k = n).
Proof.
  intros Hbody.
  induction 1 as [i|n i env t o rest Hrun Ho|n i env t rest t' o Hrun Hit IH].
  - by exists 0%nat.
  - exists 1%nat. split; [lia|]. split; [|done].
    rewrite (Hbody _ _ _ _ _ Hrun). done.
  - destruct IH as (k & Hk & Hh & Hd). exists (S k). split; [lia|]. split.
    + rewrite headers_app, (Hbody _ _ _ _ _ Hrun), Hh, header_seq_shift. done.
    + intros Ho. by rewrite Hd.
Qed.

(** X11.  The rounds are numbered from 1.  In every run of a role, whatever
    the script, the lines that open a round read "--- Iteration k (A) ---"
    (for [process_a]; "(B)" for [process_b]) for k = 1, 2, ..., in this
    order and with none left out, up to the round the role has come to; that
    is not beyond round 6, and is round 6 when the role returns. *)
Theorem rounds_numbered :
  (∀ conn env t o rest,
     run (process_a conn) env = (t, o, rest) ->
     ∃ k, (k ≤ 6)%nat
          ∧ headers t = (λ j, header "A" (Z.of_nat j)) <$> seq 1 k
          ∧ (o = Done tt -> k = 6%nat))
  ∧ (∀ env t o rest,
       run process_b env = (t, o, rest) ->
       ∃ k, (k ≤ 6)%nat
            ∧ headers t = (λ j, header "B" (Z.of_nat j)) <$> seq 1 k
            ∧ (o = Done tt -> k = 6%nat)).
Proof.
  split.
  - intros conn env t o rest Hrun.
    apply process_a_iterates in Hrun as (tl & Hl & ->).
    destruct (iterates_headers _ "A" _ _ _ _ (round_a_headers conn) Hl)
      as (k & Hk & Hh & Hd).
    exists k. split; [done|]. split; [|done].
    change (?x :: ?l) with ([x] ++ l).
    rewrite !headers_app, Hh, headers_unwinds, app_nil_r.
    replace (headers (finished _ o)) with (@nil entry) by (by destruct o).
    by rewrite app_nil_r.
  - intros env t o rest Hrun.
    apply process_b_cases in Hrun. unfold process_b_run_cases in Hrun.
    assert (∀ pre (o : outcome unit), headers pre = [] -> o ≠ Done tt ->
              ∃ k : nat, (k ≤ 6)%nat
              ∧ headers pre = (λ j, header "B" (Z.of_nat j)) <$> seq 1 k
              ∧ (o = Done tt -> k = 6%nat)) as Hstop.
    { intros pre o' Hpre Ho. exists 0%nat. rewrite Hpre. split; [lia|done]. }
    assert (∀ pre s (o : outcome unit), headers pre = [] -> o ≠ Done tt ->
              ∃ k : nat, (k ≤ 6)%nat
              ∧ headers (pre ++ closes s) = (λ j, header "B" (Z.of_nat j)) <$> seq 1 k
              ∧ (o = Done tt -> k = 6%nat)) as Hfail.
    { intros pre s o' Hpre Ho. apply Hstop; [|done].
      by rewrite headers_app, headers_closes, Hpre. }
    destruct env as [|r0 env]; [destruct Hrun as [-> ->]; by apply Hstop|].
    destruct (ret r0 <? 0); [destruct Hrun as [-> ->]; by apply Hstop|].
    destruct env as [|r1 env]; [destruct Hrun as [-> ->]; by apply Hstop|].
    destruct (ret r1 <=? 0); [destruct Hrun as [-> ->]; by apply Hfail|].
    destruct env as [|r2 env]; [destruct Hrun as [-> ->]; by apply Hstop|].
    destruct (ret r2 <? 0); [destruct Hrun as [-> ->]; by apply Hfail|].
    destruct Hrun as (tl & Hl & ->). apply b_loop_iterates in Hl as (tl' & Hl & ->).
    destruct (iterates_headers _ "B" _ _ _ _ (round_b_headers (MkSocket (ret r0))) Hl)
      as (k & Hk & Hh & Hd).
    exists k. split; [done|]. split; [|done].
    change (?x :: tl' ++ ?l) with ([x] ++ tl' ++ l).
    rewrite !headers_app, Hh, headers_unwinds, app_nil_r.
    replace (headers (finished _ o)) with (@nil entry) by (by destruct o).
    by rewrite app_nil_r.
Qed.

Lemma rounds_numbered_witness :
  ∃ k, (k ≤ 6)%nat
       ∧ headers (trace_of (process_a (MkSocket 4)) a_peer_gone)
         = (λ j, header "A" (Z.of_nat j)) <$> seq 1 k.
Proof.
  destruct (proj1 rounds_numbered (MkSocket 4) a_peer_gone _ _ _ eq_refl)
    as (k & Hk & Hh & _).
  by exists k.
Defined.

(** ** Scripts under which a role completes *)

Lemma good_inv r :
  good r = true ->
  (ret (to_send r) <? 0) = false ∧ (ret (to_recv r) <=? 0) = false
  ∧ ∃ msg, c_str (store (take 128 (data (to_recv r))) (data (at_buf r))) = Some msg.
Proof.
  unfold good, heard. intros [Hs Hr]%andb_prop. apply bool_decide_eq_true in Hr.
  apply Z.leb_le in Hs. split; [by apply Z.ltb_ge|].
  destruct (ret (to_recv r) <=? 0); [by destruct Hr|]. split; [done|].
  destruct Hr as [msg Hr]. by exists msg.
Qed.

Lemma round_a_completes conn i r env :
  good r = true ->
  ∃ t, run (round_a conn i) (a_answers r ++ env) = (t, Done tt, env).
Proof.
  intros (Hs & Hr & msg & Hmsg)%good_inv.
  unfold round_a, a_answers; unfold_calls. simpl. rewrite Hs. simpl.
  rewrite Hr, Hmsg. simpl. by eexists.
Qed.

Lemma round_b_completes sock i r env :
  good r = true ->
  ∃ t, run (round_b sock i) (b_answers r ++ env) = (t, Done tt, env).
Proof.
  intros (Hs & Hr & msg & Hmsg)%good_inv.
  unfold round_b, b_answers; unfold_calls. simpl. rewrite Hr, Hmsg. simpl.
  rewrite Hs. by eexists.
Qed.

Lemma for_loop_completes body (answers : round -> list response) rounds i env :
  (∀ i r env, good r = true ->
     ∃ t, run (body i) (answers r ++ env) = (t, Done tt, env)) ->
  Forall (λ r, good r = true) rounds ->
  ∃ t, run (for_loop (length rounds) i body) (concat (answers <$> rounds) ++ env)
       = (t, Done tt, env).
Proof.
  intros Hbody Hgood. revert i.
  induction Hgood as [|r rounds Hr _ IH]; intros i; [by eexists|].
  cbn [length for_loop fmap list_fmap concat]. rewrite <-app_assoc, run_mbind.
  destruct (Hbody i r (concat (answers <$> rounds) ++ env) Hr) as [t1 ->].
  destruct (IH (i + 1)) as [t2 H2]. cbn [and_then]. rewrite H2. by eexists.
Qed.

Lemma role_loop_completes body answers txt1 txt2 rounds env :
  (∀ i r env, good r = true ->
     ∃ t, run (body i) (answers r ++ env) = (t, Done tt, env)) ->
  Forall (λ r, good r = true) rounds ->
  ∃ t, run (print Stdout txt1 ;; for_loop (length rounds) 0 body ;; print Stdout txt2)
         (concat (answers <$> rounds) ++ env) = (t, Done tt, env).
Proof.
  intros Hbody Hgood.
  destruct (for_loop_completes body answers rounds 0 env Hbody Hgood) as [t Ht].
  rewrite run_mbind, run_print. cbn [and_then]. rewrite run_mbind, Ht.
  cbn [and_then]. rewrite run_print. by eexists.
Qed.

Lemma process_a_done conn rounds env :
  length rounds = 6%nat -> Forall (λ r, good r = true) rounds ->
  ∃ t, run (process_a conn) (concat (a_answers <$> rounds) ++ env) = (t, Done tt, env).
Proof.
  intros Hlen Hgood.
  destruct (role_loop_completes (round_a conn) a_answers
              ("[Process A] Initial state: READY" +:+ LF) ("[Process A] Finished." +:+ LF)
              rounds env (round_a_completes conn) Hgood) as [t Ht].
  rewrite Hlen in Ht. unfold process_a. rewrite run_scope_socket.
  change (Z.to_nat (MAX_ITERATIONS - 0)) with 6%nat. rewrite Ht. by eexists.
Qed.

Lemma process_b_done r0 r1 r2 rounds env :
  0 ≤ ret r0 -> 0 < ret r1 -> 0 ≤ ret r2 ->
  length rounds = 6%nat -> Forall (λ r, good r = true) rounds ->
  ∃ t, run process_b (r0 :: r1 :: r2 :: concat (b_answers <$> rounds) ++ env)
       = (t, Done tt, env).
Proof.
  intros H0 H1 H2 Hlen Hgood.
  destruct (role_loop_completes (round_b (MkSocket (ret r0))) b_answers
              ("[Process B] Initial state: SLEEP" +:+ LF) ("[Process B] Finished." +:+ LF)
              rounds env (round_b_completes _) Hgood) as [t Ht].
  rewrite Hlen in Ht. unfold process_b, Socket_of_fd.
  rewrite run_call_bind by done. rewrite run_mbind.
  destruct (Z.ltb_spec (ret r0) 0); [lia|]. cbn [run and_then app].
  rewrite run_scope_socket, run_call_bind by done. rewrite run_mbind.
  destruct (Z.leb_spec (ret r1) 0); [lia|]. cbn [run and_then app].
  rewrite run_mbind, run_sleep. cbn [and_then app].
  rewrite run_call_bind by done. rewrite run_mbind.
  destruct (Z.ltb_spec (ret r2) 0); [lia|]. cbn [run and_then app].
  change (Z.to_nat (MAX_ITERATIONS - 0)) with 6%nat. rewrite Ht. by eexists.
Qed.

Lemma TcpServer_ctor_ok r0 r1 r2 r3 env :
  0 ≤ ret r0 -> 0 ≤ ret r1 -> 0 ≤ ret r2 -> 0 ≤ ret r3 ->
  run TcpServer_ctor (r0 :: r1 :: r2 :: r3 :: env)
  = ([(EvSocket, r0); (EvSetsockopt (ret r0), r1);
      (EvBind (ret r0) PORT, r2); (EvListen (ret r0) 1, r3)],
     Done (MkTcpServer (MkSocket (ret r0))), env).
Proof.
  intros H0 H1 H2 H3.
  unfold TcpServer_ctor, Socket_of_fd, Socket_move_assign, Socket_dtor, Socket_default.
  unfold_calls. simpl.
  destruct (Z.ltb_spec (ret r0) 0); [lia|]. simpl.
  destruct (Z.ltb_spec (ret r1) 0); [lia|]. simpl.
  destruct (Z.ltb_spec (ret r2) 0); [lia|]. simpl.
  by destruct (Z.ltb_spec (ret r3) 0); [lia|].
Qed.

Lemma main_try_forked r0 r1 r2 r3 r4 env :
  0 ≤ ret r0 -> 0 ≤ ret r1 -> 0 ≤ ret r2 -> 0 ≤ ret r3 -> 0 ≤ ret r4 ->
  run main_try (r0 :: r1 :: r2 :: r3 :: r4 :: env)
  = let lfd := MkSocket (ret r0) in
    let '(t, o, rest) :=
      run ((if ret r4 =? 0 then process_b ;; Exit 0 else Ret tt) ;;
           conn ← accept_client (MkTcpServer lfd);
           let '(param, conn') := Socket_move conn in
           scope
             (process_a param ;;
              call (EvWaitpid (ret r4)) ;;
              print Stdout (LF +:+ "=== Done ===" +:+ LF) ;;
              Ret 0)
             (Socket_dtor conn')) env in
    ([banner; (EvSocket, r0); (EvSetsockopt (ret r0), r1);
      (EvBind (ret r0) PORT, r2); (EvListen (ret r0) 1, r3); (EvFork, r4)]
     ++ t ++ unwinds o lfd, o, rest).
Proof.
  intros H0 H1 H2 H3 H4. unfold main_try.
  rewrite run_mbind, run_print. cbn [and_then]. rewrite run_mbind.
  rewrite TcpServer_ctor_ok by done. cbn [and_then listen_fd_].
  rewrite run_scope_socket, run_call_bind by done. cbv zeta. rewrite run_mbind.
  destruct (Z.ltb_spec (ret r4) 0); [lia|]. cbn [run and_then app].
  by destruct (run _ env) as [[t o] rest].
Qed.

(** X12.  What the roles need to complete.  [process_a] returns whenever
    the script answers six rounds in each of which the write is accepted and
    the read yields a string; [process_b] returns whenever [socket],
    [inet_pton] and [connect] succeed and six such rounds follow.  What the
    strings say plays no part: neither role looks at the message it
    received, so that any six messages complete the exchange.  The role
    takes exactly these answers from the script. *)
Theorem roles_complete rounds :
  length rounds = 6%nat -> Forall (λ r, good r = true) rounds ->
  (∀ conn env,
     ∃ t, run (process_a conn) (concat (a_answers <$> rounds) ++ env)
          = (t, Done tt, env))
  ∧ (∀ r0 r1 r2 env,
       0 ≤ ret r0 -> 0 < ret r1 -> 0 ≤ ret r2 ->
       ∃ t, run process_b (r0 :: r1 :: r2 :: concat (b_answers <$> rounds) ++ env)
            = (t, Done tt, env)).
Proof.
  intros Hlen Hgood. split.
  - intros conn env. by apply process_a_done.
  - intros r0 r1 r2 env H0 H1 H2. by apply process_b_done.
Qed.

Lemma roles_complete_witness :
  ∃ t, run (process_a (MkSocket 4))
         (concat (a_answers <$>
                  replicate 6 (Round (returns 1) (holds (zeroes 128))
                                 (delivers (msg0 "anything")))) ++ [])
       = (t, Done tt, []).
Proof.
  apply (roles_complete
           (replicate 6 (Round (returns 1) (holds (zeroes 128))
                           (delivers (msg0 "anything"))))).
  - reflexivity.
  - repeat constructor.
Defined.

(** X13.  What [main] needs to succeed.  With [socket], [setsockopt], [bind]
    and [listen] answered with success: in the parent ([fork] returned a
    pid), when [accept] succeeds and six rounds follow in which the write is
    accepted and the read yields a string, [main] returns 0 as soon as
    [waitpid] is back, whatever it stored; in the child ([fork] returned 0),
    when [socket], [inet_pton] and [connect] succeed and six such rounds
    follow, the process leaves through [_exit(0)]. *)
Theorem main_completes r0 r1 r2 r3 rounds :
  0 ≤ ret r0 -> 0 ≤ ret r1 -> 0 ≤ ret r2 -> 0 ≤ ret r3 ->
  length rounds = 6%nat -> Forall (λ r, good r = true) rounds ->
  (∀ r4 r5 r6 env,
     0 < ret r4 -> 0 ≤ ret r5 ->
     ∃ t, run main (r0 :: r1 :: r2 :: r3 :: r4 :: r5
                    :: concat (a_answers <$> rounds) ++ r6 :: env)
          = (t, Done 0, env))
  ∧ (∀ r4 s0 s1 s2 env,
       ret r4 = 0 -> 0 ≤ ret s0 -> 0 < ret s1 -> 0 ≤ ret s2 ->
       ∃ t, run main (r0 :: r1 :: r2 :: r3 :: r4 :: s0 :: s1 :: s2
                      :: concat (b_answers <$> rounds) ++ env)
            = (t, Exited 0, env)).
Proof.
  intros H0 H1 H2 H3 Hlen Hgood. split.
  - intros r4 r5 r6 env H4 H5.
    rewrite run_main, main_try_forked by (done || lia). cbv zeta.
    destruct (Z.eqb_spec (ret r4) 0); [lia|].
    rewrite run_mbind. cbn [run and_then app]. unfold accept_client, Socket_of_fd.
    rewrite run_mbind, run_call_bind by done. rewrite run_mbind.
    destruct (Z.ltb_spec (ret r5) 0); [lia|]. cbn [run and_then app Socket_move fd_].
    rewrite run_scope_socket, run_mbind.
    destruct (process_a_done (MkSocket (ret r5)) rounds (r6 :: env) Hlen Hgood)
      as [ta ->].
    cbn [and_then]. rewrite run_call_bind by done.
    rewrite run_mbind, run_print. cbn [and_then run app]. by eexists.
  - intros r4 s0 s1 s2 env H4 Hs0 Hs1 Hs2.
    rewrite run_main, main_try_forked by (done || lia). cbv zeta.
    destruct (Z.eqb_spec (ret r4) 0); [|lia].
    rewrite run_mbind, run_mbind.
    destruct (process_b_done s0 s1 s2 rounds env Hs0 Hs1 Hs2 Hlen Hgood) as [tb ->].
    cbn [and_then run app]. by eexists.
Qed.

Lemma main_completes_witness :
  (∃ t, run main (setup_ok ++ returns 9 :: returns 4
                  :: concat (replicate 6 a_round_ok) ++ [returns 9]) = (t, Done 0, []))
  ∧ (∃ t, run main (setup_ok ++ returns 0 :: b_dial_ok
                    ++ concat (replicate 6 b_round_ok)) = (t, Exited 0, [])).
Proof.
  destruct (main_completes (returns 3) (returns 0) (returns 0) (returns 0)
              (replicate 6 (Round (returns 5) (holds (zeroes 128))
                              (delivers (msg0 "PONG")))))
    as [Hp _]; [simpl; lia..|reflexivity|repeat constructor|].
  destruct (main_completes (returns 3) (returns 0) (returns 0) (returns 0)
              (replicate 6 (Round (returns 5) (holds (zeroes 128))
                              (delivers (msg0 "PING")))))
    as [_ Hc]; [simpl; lia..|reflexivity|repeat constructor|].
  split.
  - apply (Hp (returns 9) (returns 4) (returns 9) []); simpl; lia.
  - apply (Hc (returns 0) (returns 5) (returns 1) (returns 0) []); simpl; lia.
Defined.

(** ** The text on the standard output *)

Lemma text_app_assoc (a b c : string) : (a +:+ b) +:+ c = a +:+ b +:+ c.
Proof.
  induction a as [|x a IH]; [done|].
  change (String x ((a +:+ b) +:+ c) = String x (a +:+ b +:+ c)). by rewrite IH.
Qed.

Lemma text_app_nil_r (a : string) : a +:+ EmptyString = a.
Proof.
  induction a as [|x a IH]; [done|].
  change (String x (a +:+ EmptyString) = String x a). by rewrite IH.
Qed.

Lemma text_app_length (a b : string) :
  String.length (a +:+ b) = (String.length a + String.length b)%nat.
Proof.
  induction a as [|x a IH]; [done|].
  change (S (String.length (a +:+ b)) = S (String.length a + String.length b)).
  by rewrite IH.
Qed.

Lemma text_app_inj (a b c d : string) :
  String.length a = String.length b -> a +:+ c = b +:+ d -> c = d.
Proof.
  revert b; induction a as [|x a IH]; intros [|y b]; try done.
  intros [= Hlen] H.
  change (String x (a +:+ c) = String y (b +:+ d)) in H. injection H as _ H.
  by apply (IH b).
Qed.

Lemma text_suffix_eq (a b c d : string) :
  a +:+ c = b +:+ d -> String.length c = String.length d -> c = d.
Proof.
  intros H Hlen. apply (text_app_inj a b); [|done].
  apply (f_equal String.length) in H. rewrite !text_app_length in H. lia.
Qed.

Lemma closing_app a b : closing b -> closing (a +:+ b).
Proof.
  intros (pre & c & -> & Hlen & Hc). exists (a +:+ pre), c.
  by rewrite text_app_assoc.
Qed.

Lemma closing_not_done s : closing s -> ¬ ends_with s done_text.
Proof.
  intros (pre & c & -> & Hlen & Hc) [p Hp].
  change done_text with ((LF +:+ "=== Don") +:+ done_tail) in Hp.
  rewrite <-text_app_assoc in Hp. apply text_suffix_eq in Hp; [|done].
  subst c. by rewrite String.eqb_refl in Hc.
Qed.

Lemma stdout_text_app t1 t2 :
  stdout_text (t1 ++ t2) = stdout_text t1 +:+ stdout_text t2.
Proof.
  induction t1 as [|[e r] t1 IH]; simpl; [done|].
  destruct e as [| | | | | | | | | | | | | |[] txt]; by rewrite IH, ?text_app_assoc.
Qed.

Lemma plain_text t :
  Forall plain t -> stdout_text t = EmptyString ∨ closing (stdout_text t).
Proof.
  induction 1 as [|[e r] t Hx _ IH]; simpl; [by left|].
  destruct e as [| | | | | | | | | | | | | |[] txt]; try done.
  right. unfold plain in Hx. cbn [fst] in Hx. destruct IH as [->|IH]; [by rewrite text_app_nil_r|by apply closing_app].
Qed.

Lemma plain_not_done t : Forall plain t -> ¬ ends_with (stdout_text t) done_text.
Proof.
  intros [Ht|Ht]%plain_text; [|by apply closing_not_done].
  rewrite Ht. intros [p Hp]. apply (f_equal String.length) in Hp.
  rewrite text_app_length in Hp. simpl in Hp. lia.
Qed.

(** Shows that a text ends in six characters other than [done_tail]:
    from its last piece when it is put together from several. *)
Ltac closing_text :=
  first
    [ apply closing_app; closing_text
    | match goal with
      | |- closing ?b =>
          let n := eval vm_compute in (String.length b - 6)%nat in
          let pre := eval vm_compute in (substring 0 n b) in
          let c := eval vm_compute in (substring n 6 b) in
          exists pre, c; split; [reflexivity|split; reflexivity]
      end ].

Ltac plain_calls :=
  repeat first [apply Forall_nil_2 | apply Forall_cons_2];
  unfold plain; cbn [fst]; try exact I; closing_text.

Lemma iterates_Forall (P : entry -> Prop) body n i t o :
  (∀ i env t o rest, run (body i) env = (t, o, rest) -> Forall P t) ->
  iterates body n i t o -> Forall P t.
Proof.
  intros Hbody.
  induction 1 as [i|n i env t o rest Hrun Ho|n i env t rest t' o Hrun Hit IH].
  - done.
  - by eapply Hbody.
  - apply Forall_app. split; [by eapply Hbody|done].
Qed.

Lemma round_a_plain conn i env t o rest :
  run (round_a conn i) env = (t, o, rest) -> Forall plain t.
Proof. unfold round_a; unfold_calls. intros H. crunch; plain_calls. Qed.

Lemma round_b_plain sock i env t o rest :
  run (round_b sock i) env = (t, o, rest) -> Forall plain t.
Proof. unfold round_b; unfold_calls. intros H. crunch; plain_calls. Qed.

Lemma plain_closes s : Forall plain (closes s).
Proof. unfold closes. destruct (0 <=? fd_ s); by repeat constructor. Qed.

Lemma plain_unwinds {A} (o : outcome A) s : Forall plain (unwinds o s).
Proof. destruct o; try done; apply plain_closes. Qed.

Lemma stdout_text_closes s : stdout_text (closes s) = EmptyString.
Proof. unfold closes. by destruct (0 <=? fd_ s). Qed.

Lemma process_a_plain conn env t o rest :
  run (process_a conn) env = (t, o, rest) -> Forall plain t.
Proof.
  intros Hrun. apply process_a_iterates in Hrun as (tl & Hl & ->).
  constructor; [plain_calls|]. rewrite !Forall_app. split_and!.
  - eapply iterates_Forall; [|done]. apply round_a_plain.
  - destruct o; try done. unfold finished. plain_calls.
  - apply plain_unwinds.
Qed.

Lemma process_b_plain env t o rest :
  run process_b env = (t, o, rest) -> Forall plain t.
Proof.
  intros Hrun. apply process_b_cases in Hrun. unfold process_b_run_cases in Hrun.
  destruct env as [|r0 env]; [by destruct Hrun as [-> ->]|].
  destruct (ret r0 <? 0); [destruct Hrun as [-> ->]; by repeat constructor|].
  destruct env as [|r1 env]; [destruct Hrun as [-> ->]; by repeat constructor|].
  destruct (ret r1 <=? 0).
  { destruct Hrun as [-> ->]. apply Forall_app. split; [by repeat constructor|].
    apply plain_closes. }
  destruct env as [|r2 env]; [destruct Hrun as [-> ->]; by repeat constructor|].
  destruct (ret r2 <? 0).
  { destruct Hrun as [-> ->]. apply Forall_app. split; [by repeat constructor|].
    apply plain_closes. }
  destruct Hrun as (tl & Hl & ->). apply b_loop_iterates in Hl as (tl' & Hl & ->).
  rewrite !Forall_app. split_and!; [by repeat constructor| |apply plain_unwinds].
  constructor; [plain_calls|]. apply Forall_app. split.
  - eapply iterates_Forall; [|done]. apply round_b_plain.
  - destruct o; try done. unfold finished. plain_calls.
Qed.

Lemma main_try_stdout env t o rest :
  run main_try env = (t, o, rest) ->
  ends_with (stdout_text t) done_text ↔ o = Done 0.
Proof.
  intros Hrun. apply main_try_shape in Hrun.
  destruct Hrun as (ts & os & env0 & Hs & Hcase).
  assert (Forall plain ts) as Hts.
  { eapply Forall_impl; [by eapply TcpServer_ctor_calls|]. by intros [[] r]. }
  assert (plain banner) as Hbanner by (unfold plain, banner; cbn [fst]; closing_text).
  assert (∀ t (o : outcome Z), Forall plain t -> o ≠ Done 0 ->
            ends_with (stdout_text (banner :: ts ++ t)) done_text ↔ o = Done 0) as Hno.
  { intros t0 o0 Ht Ho. split; [|done]. intros Hin. exfalso.
    apply (plain_not_done (banner :: ts ++ t0)); [|done].
    constructor; [done|]. by apply Forall_app. }
  destruct os as [srv|w|c| |];
    try (destruct Hcase as [-> ->]; rewrite <-(app_nil_r ts); by apply Hno).
  cbv zeta in Hcase.
  destruct env0 as [|r4 env1].
  { destruct Hcase as [-> ->]. rewrite <-(app_nil_r ts). by apply Hno. }
  destruct (ret r4 <? 0).
  { destruct Hcase as [-> ->]. apply Hno; [|done].
    constructor; [done|]. apply plain_closes. }
  destruct Hcase as (t' & -> & Hcase).
  destruct (ret r4 =? 0).
  - destruct Hcase as (tb & ob & restb & Hb & Hcase).
    apply process_b_plain in Hb.
    destruct ob as [[]|w|c| |]; destruct Hcase as [-> ->]; apply Hno;
      try done; try (by constructor); try (by destruct c).
    constructor; [done|]. apply Forall_app. split; [done|apply plain_closes].
  - unfold parent_cases in Hcase.
    destruct env1 as [|r5 env2].
    { destruct Hcase as [-> ->]. apply Hno; [by repeat constructor|done]. }
    destruct (ret r5 <? 0).
    { destruct Hcase as [-> ->]. apply Hno; [|done].
      do 2 (constructor; [done|]). apply plain_closes. }
    destruct Hcase as (ta & oa & resta & Ha & Hcase).
    pose proof (cf_no_exit _ _ _ _ _ _ (process_a_run _ _ _ _ _ Ha)) as Hne.
    apply process_a_plain in Ha.
    destruct oa as [[]|w|c| |].
    + destruct resta as [|r6 resta]; destruct Hcase as [-> ->].
      * apply Hno; [by repeat constructor|done].
      * split; [done|]. intros _.
        exists (stdout_text (banner :: ts ++ (EvFork, r4)
                             :: (EvAccept (fd_ (listen_fd_ srv)), r5) :: ta)).
        change (banner :: ts ++ ?e4 :: ?e5 :: ta ++ [?w; done_line] ++ ?cl)
          with (banner :: ts ++ e4 :: e5 :: ta ++ w :: done_line :: cl).
        replace (banner :: ts ++ (EvFork, r4) :: (EvAccept (fd_ (listen_fd_ srv)), r5)
                 :: ta ++ (EvWaitpid (ret r4), r6) :: done_line
                 :: closes (listen_fd_ srv))
          with ((banner :: ts ++ (EvFork, r4) :: (EvAccept (fd_ (listen_fd_ srv)), r5)
                 :: ta) ++ (EvWaitpid (ret r4), r6) :: done_line
                 :: closes (listen_fd_ srv))
          by (cbn [app]; by rewrite <-app_assoc).
        rewrite stdout_text_app. f_equal.
        cbn [stdout_text fst is_waitpid done_line].
        by rewrite stdout_text_closes, text_app_nil_r.
    + destruct Hcase as [-> ->]. apply Hno; [|done].
      do 2 (constructor; [done|]). apply Forall_app. split; [done|].
      apply plain_closes.
    + by destruct (Hne c).
    + destruct Hcase as [-> ->]. apply Hno; [by repeat constructor|done].
    + destruct Hcase as [-> ->]. apply Hno; [by repeat constructor|done].
Qed.

(** X14.  What a run of [main] has written to [std::cout] ends with the
    line "=== Done ===" exactly when [main] returns 0.  This is about the
    text as a whole, not about the statement that writes it: a message that
    is echoed in a "Received" line may hold the same characters, but the
    echo is always followed by ", entering READY", and nothing is written to
    [std::cout] after the line of line 204. *)
Theorem stdout_ends_done_iff_success env t o rest :
  run main env = (t, o, rest) ->
  ends_with (stdout_text t) (LF +:+ "=== Done ===" +:+ LF) ↔ o = Done 0.
Proof.
  rewrite run_main. destruct (run main_try env) as [[t0 o0] rest0] eqn:Hrun.
  apply main_try_stdout in Hrun. fold done_text.
  destruct o0 as [c|w|c| |]; intros [= <- <- _]; try done.
  rewrite stdout_text_app. cbn [stdout_text fst]. rewrite text_app_nil_r.
  split; [|done]. intros Hin. by apply Hrun in Hin.
Qed.

Lemma stdout_ends_done_iff_success_witness :
  ends_with
    (stdout_text (trace_of main (setup_ok ++ returns 9 :: returns 4
                                 :: concat (replicate 6 a_round_ok) ++ [returns 9])))
    (LF +:+ "=== Done ===" +:+ LF)
  ∧ ¬ ends_with
        (stdout_text
           (trace_of main
              (setup_ok ++ returns 9 :: returns 4 :: returns 5 :: holds (zeroes 128)
               :: [Response 14 (list_byte_of_string done_text ++ [x00]) EmptyString])))
        (LF +:+ "=== Done ===" +:+ LF).
Proof.
  split.
  - by apply (stdout_ends_done_iff_success
                (setup_ok ++ returns 9 :: returns 4
                 :: concat (replicate 6 a_round_ok) ++ [returns 9]) _ _ _ eq_refl).
  - intros H.
    by apply (stdout_ends_done_iff_success
                (setup_ok ++ returns 9 :: returns 4 :: returns 5 :: holds (zeroes 128)
                 :: [Response 14 (list_byte_of_string done_text ++ [x00]) EmptyString])
                _ _ _ eq_refl) in H.
Defined.
